(** * RRT planner on an occupancy grid: a shallow embedding of [rrt_planner.py]

    The development follows the Python module top to bottom: the [State]
    class, [steer_algorithm], then the methods of [RRTPlanner].  Python
    integers are [Z], Python and numpy floats are IEEE binary64 numbers
    (Rocq's primitive [float]), [State] objects live in an object store
    addressed by position, and exceptions are an explicit result type. *)

From Stdlib Require Import ZArith List Bool Lia.
From Stdlib Require Import Floats.PrimFloat Floats.FloatOps Floats.SpecFloat.
From Stdlib Require Import Floats.FloatAxioms.
From stdpp Require Import base list.
Import ListNotations.
Open Scope Z_scope.

(** ** Results of Python computations *)

Inductive exn := AssertionError | OverflowError | ValueError.

(** [Stuck] is a read through a reference that is not in the object store
    (Python has no such reference); [OutOfFuel] is a [while] loop that has
    not finished within the fuel it was given. *)
Inductive result (A : Type) : Type :=
| Ok (a : A)
| Raise (e : exn)
| Stuck
| OutOfFuel.
Arguments Ok {A} a.
Arguments Raise {A} e.
Arguments Stuck {A}.
Arguments OutOfFuel {A}.

#[global] Instance result_bind : MBind result := fun A B k r =>
  match r with
  | Ok a => k a
  | Raise e => Raise e
  | Stuck => Stuck
  | OutOfFuel => OutOfFuel
  end.

#[global] Instance result_ret : MRet result := fun A a => Ok a.

(** [assert (c)] *)
Definition py_assert (c : bool) : result unit :=
  if c then Ok tt else Raise AssertionError.

(** ** Floats *)

(** Conversion of a Python [int] to a float: correctly rounded, and
    [OverflowError] when the rounded value is out of range. *)
Definition float_of_int (z : Z) : result float :=
  let f := SF2Prim (binary_normalize prec emax z 0 false) in
  if is_infinity f then Raise OverflowError else Ok f.

(** [int(f)]: truncation toward zero; [ValueError] on nan, [OverflowError]
    on an infinity. *)
Definition int_of_float (f : float) : result Z :=
  match Prim2SF f with
  | S754_nan => Raise ValueError
  | S754_infinity _ => Raise OverflowError
  | S754_zero _ => Ok 0
  | S754_finite s m e =>
      let a := Z.shiftl (Z.pos m) e in Ok (if s then - a else a)
  end.

(** [np.pi] *)
Definition np_pi : float := 0x1.921fb54442d18p+1%float.

(** numpy's elementary functions are outside the repository: they are taken
    as they come, as three functions on binary64 numbers. *)
Record NumpyMath := {
  np_arctan : float -> float;
  np_sin : float -> float;
  np_cos : float -> float
}.

(** ** class State *)

(** References to objects of the store. *)
Abbreviation addr := nat (only parsing).

Record State := mkState {
  x : Z;
  y : Z;
  parent : option addr;
  children : list addr
}.

(** [State(x, y, parent)] *)
Definition State_init (x0 y0 : Z) (par : option addr) : State :=
  mkState x0 y0 par [].

(** [__eq__] *)
Definition State_eq (self state : State) : bool :=
  (x self =? x state) && (y self =? y state).

(** [euclidean_distance]; [math.sqrt] first converts its [int] argument. *)
Definition euclidean_distance (self state : State) : result float :=
  (d2 ← float_of_int ((x state - x self) ^ 2 + (y state - y self) ^ 2);
   Ok (PrimFloat.sqrt d2)).

(** ** steer_algorithm

    [max_radius] is a float, as annotated; the quotient [dy / dx] of two
    Python integers is the float quotient of their conversions, which is what
    Python computes for integers below [2^53] in magnitude. *)
Definition steer_algorithm (np : NumpyMath) (s1 s2 : State) (height : Z)
    (max_radius : float) : result (Z * Z) :=
  let y1 := height - y s1 in
  let y2 := height - y s2 in
  let real_dy := y s2 - y s1 in
  let dx := x s2 - x s1 in
  let dy := y2 - y1 in
  if dx =? 0 then
    (sg ← float_of_int (- Z.sgn real_dy);
     fy1 ← float_of_int y1;
     let yv := (fy1 + sg * max_radius)%float in
     fh ← float_of_int height;
     yr ← int_of_float (fh - yv)%float;
     Ok (x s1, yr))
  else
    (fdx ← float_of_int dx;
     fdy ← float_of_int dy;
     let theta :=
       if dx <? 0 then
         let t := np_arctan np (fdy / (- fdx))%float in
         if dy <? 0 then (- np_pi - t)%float else (np_pi - t)%float
       else np_arctan np (fdy / fdx)%float in
     let dy2 := (np_sin np theta * max_radius)%float in
     let dx2 := (np_cos np theta * max_radius)%float in
     fx1 ← float_of_int (x s1);
     xr ← int_of_float (fx1 + dx2)%float;
     fy1 ← float_of_int y1;
     yr ← int_of_float (fy1 + dy2)%float;
     Ok (xr, height - yr)).

(** ** class RRTPlanner *)

Definition pixel := (Z * Z * Z)%type.

Definition channel0 (px : pixel) : Z := fst (fst px).

(** [world] is the [(rows, cols, channels)] array, row by row. *)
Record RRTPlanner := { world : list (list pixel) }.

(** [world.shape[0]] and [world.shape[1]] *)
Definition rows (p : RRTPlanner) : Z := Z.of_nat (length (world p)).
Definition cols (p : RRTPlanner) : Z :=
  match world p with
  | [] => 0
  | r :: _ => Z.of_nat (length r)
  end.

(** [(world[:, :, 0] == 0).astype('uint8')]: a cell is 1 iff it is occupied. *)
Definition occ_grid (p : RRTPlanner) : list (list Z) :=
  map (map (fun px => if channel0 px =? 0 then 1 else 0)) (world p).

(** Python's resolution of one end of a slice on an axis of length [n]. *)
Definition slice_index (n i : Z) : Z :=
  if i <? 0 then Z.max (i + n) 0 else Z.min i n.

(** [l[start:stop]] on an axis of length [n] *)
Definition py_slice {A} (n start stop : Z) (l : list A) : list A :=
  let lo := slice_index n start in
  let hi := slice_index n stop in
  take (Z.to_nat (hi - lo)) (drop (Z.to_nat lo) l).

(** [a[r0:r1, c0:c1]] on an array of shape [(nr, nc)] *)
Definition slice2d {A} (nr nc r0 r1 c0 c1 : Z) (a : list (list A))
    : list (list A) :=
  map (py_slice nc c0 c1) (py_slice nr r0 r1 a).

Definition state_is_free (p : RRTPlanner) (state : State) : bool :=
  forallb (forallb (fun c => c =? 0))
    (slice2d (rows p) (cols p)
       (y state - 5) (y state + 5) (x state - 5) (x state + 5) (occ_grid p)).

(** ** The object store and the random generator

    [State] objects that the planner keeps (the start, the destination and
    the nodes it inserts) are cells of the store; a [State] value that is
    only read for its coordinates is passed as it is.  [draws] counts the
    calls made to [np.random.randint] so far. *)

Record Store := mkStore { heap : list State; draws : nat }.

Definition M (A : Type) : Type := Store -> result (A * Store).

#[global] Instance M_bind : MBind M := fun A B k m =>
  fun st => '(a, st') ← m st; k a st'.

#[global] Instance M_ret : MRet M := fun A a => fun st => Ok (a, st).

Definition lift {A} (r : result A) : M A :=
  fun st => a ← r; Ok (a, st).

Definition diverge {A} : M A := fun _ => OutOfFuel.

Definition get_obj (a : addr) : M State := fun st =>
  match heap st !! a with
  | Some o => Ok (o, st)
  | None => Stuck
  end.

Definition set_obj (a : addr) (o : State) : M unit := fun st =>
  match heap st !! a with
  | Some _ => Ok (tt, mkStore (<[a := o]> (heap st)) (draws st))
  | None => Stuck
  end.

Definition alloc (o : State) : M addr := fun st =>
  Ok (length (heap st), mkStore (heap st ++ [o]) (draws st)).

(** [np.random.randint(low, high)]: the generator is a sequence of raw
    values, the [n]-th call reduces the [n]-th one into [[low, high)]. *)
Definition np_random_randint (rnd : nat -> Z) (low high : Z) : M Z := fun st =>
  if high <=? low then Raise ValueError
  else Ok (low + rnd (draws st) `mod` (high - low),
           mkStore (heap st) (S (draws st))).

(** The order in which [list(tree_nodes)] enumerates a set is CPython's
    business: any rearrangement of the members. *)
Record SetOrder := {
  py_list : list State -> list addr -> list addr;
  py_list_perm : forall h l, py_list h l ≡ₚ l
}.

Section Planner.

Variable np : NumpyMath.
Variable rnd : nat -> Z.
Variable order : SetOrder.
Variable self : RRTPlanner.

Definition sample_state : M State :=
  nx ← np_random_randint rnd 0 (cols self);
  ny ← np_random_randint rnd 0 (rows self);
  mret (State_init nx ny None).

(** The [while] loop of [_follow_parent_pointers]. *)
Fixpoint follow_loop (fuel : nat) (curr_ptr : option addr) (path : list addr)
    : M (list addr) :=
  match curr_ptr with
  | None => mret path
  | Some a =>
      match fuel with
      | O => diverge
      | S fuel' =>
          o ← get_obj a;
          follow_loop fuel' (parent o) (path ++ [a])
      end
  end.

Definition _follow_parent_pointers (fuel : nat) (state : addr) : M (list addr) :=
  path ← follow_loop fuel (Some state) [state];
  mret (rev path).

(** The [for] loop of [find_closest_state]. *)
Fixpoint closest_loop (tree_nodes : list addr) (state : State)
    (closest_state : option addr) (min_dist : float) : M (option addr) :=
  match tree_nodes with
  | [] => mret closest_state
  | node :: rest =>
      o ← get_obj node;
      dist ← lift (euclidean_distance o state);
      if (dist <? min_dist)%float
      then closest_loop rest state (Some node) dist
      else closest_loop rest state closest_state min_dist
  end.

Definition find_closest_state (tree_nodes : list addr) (state : State)
    : M (option addr) :=
  closest_loop tree_nodes state None infinity.

(** [steer_towards]; the new [State] is returned as a value, it enters the
    store when the planner keeps it. *)
Definition steer_towards (s_nearest : addr) (s_rand : State)
    (max_radius : float) : M State :=
  near ← get_obj s_nearest;
  d ← lift (euclidean_distance s_rand near);
  '(nx, ny) ← (if (d <=? max_radius)%float
               then mret (x s_rand, y s_rand)
               else lift (steer_algorithm np near s_rand (rows self) max_radius));
  mret (State_init nx ny (Some s_nearest)).

(** The [for] loop of [path_is_obstacle_free], over [range(max_checks)]. *)
Fixpoint checks_loop (s_from : addr) (o_from s_to : State) (max_checks : Z)
    (range : list nat) : result bool :=
  match range with
  | [] => Ok true
  | i :: rest =>
      fi ← float_of_int (Z.of_nat i);
      fm ← float_of_int max_checks;
      d ← euclidean_distance o_from s_to;
      let distance := (fi / fm * d)%float in
      '(nx, ny) ← steer_algorithm np o_from s_to (rows self) distance;
      if negb (state_is_free self (State_init nx ny (Some s_from)))
      then Ok false
      else checks_loop s_from o_from s_to max_checks rest
  end.

Definition path_is_obstacle_free (s_from : addr) (s_to : State) : M bool :=
  o_from ← get_obj s_from;
  lift (py_assert (state_is_free self o_from));;
  if negb (state_is_free self s_to) then mret false
  else
    let max_checks := 10 in
    lift (checks_loop s_from o_from s_to max_checks
            (seq 0 (Z.to_nat max_checks))).

(** [tree_nodes.add(s)]: membership is decided by [__eq__], that is by
    coordinates; the members are kept in the order they came in. *)
Fixpoint set_contains (tree_nodes : list addr) (s : State) : M bool :=
  match tree_nodes with
  | [] => mret false
  | a :: rest =>
      o ← get_obj a;
      if State_eq o s then mret true else set_contains rest s
  end.

Definition set_add (tree_nodes : list addr) (a : addr) : M (list addr) :=
  s ← get_obj a;
  found ← set_contains tree_nodes s;
  mret (if (found : bool) then tree_nodes else tree_nodes ++ [a]).

(** [list(tree_nodes)] *)
Definition list_of_set (tree_nodes : list addr) : M (list addr) :=
  fun st => Ok (py_list order (heap st) tree_nodes, st).

(** How one round of the [for] loop of [plan] ends, and how the loop does:
    [Continue] with the tree as it stands, or [Break] with the node that
    reached the destination and the value given to the variable [plan]. *)
Inductive flow :=
| Continue (tree_nodes : list addr)
| Break (tree_nodes : list addr) (s_new : addr) (plan : list addr).

Definition tree_of (f : flow) : list addr :=
  match f with
  | Continue t => t
  | Break t _ _ => t
  end.

(** The body of the [for] loop of [plan] (drawing apart). *)
Definition plan_iteration (fuel : nat) (dest_state : addr)
    (max_steering_radius dest_reached_radius : float)
    (tree_nodes : list addr) : M flow :=
  s_rand ← sample_state;
  nodes ← list_of_set tree_nodes;
  closest ← find_closest_state nodes s_rand;
  s_nearest ← match closest with
              | Some a => mret a
              | None => lift (Raise AssertionError)
              end;
  s_new ← steer_towards s_nearest s_rand max_steering_radius;
  free ← path_is_obstacle_free s_nearest s_new;
  if (free : bool) then
    a_new ← alloc s_new;
    tree_nodes' ← set_add tree_nodes a_new;
    near ← get_obj s_nearest;
    set_obj s_nearest
          (mkState (x near) (y near) (parent near) (children near ++ [a_new]));;
    dest ← get_obj dest_state;
    d ← lift (euclidean_distance s_new dest);
    if (d <? dest_reached_radius)%float then
      set_obj dest_state
            (mkState (x dest) (y dest) (Some a_new) (children dest));;
      path ← _follow_parent_pointers fuel dest_state;
      mret (Break tree_nodes' a_new path)
    else mret (Continue tree_nodes')
  else mret (Continue tree_nodes).

Fixpoint plan_loop (fuel : nat) (dest_state : addr)
    (max_steering_radius dest_reached_radius : float)
    (steps : nat) (tree_nodes : list addr) : M flow :=
  match steps with
  | O => mret (Continue tree_nodes)
  | S steps' =>
      f ← plan_iteration fuel dest_state max_steering_radius
            dest_reached_radius tree_nodes;
      match f with
      | Continue tree_nodes' =>
          plan_loop fuel dest_state max_steering_radius dest_reached_radius
            steps' tree_nodes'
      | Break _ _ _ => mret f
      end
  end.

(** The variable [plan] when the loop is over. *)
Definition plan_variable (start_state : addr) (f : flow) : list addr :=
  match f with
  | Continue _ => [start_state]
  | Break _ _ path => path
  end.

Definition plan (fuel : nat) (start_state dest_state : addr)
    (max_num_steps : Z) (max_steering_radius dest_reached_radius : float)
    : M (list addr) :=
  s ← get_obj start_state;
  lift (py_assert (state_is_free self s));;
  d ← get_obj dest_state;
  lift (py_assert (state_is_free self d));;
  f ← plan_loop fuel dest_state max_steering_radius dest_reached_radius
        (Z.to_nat max_num_steps) [start_state];
  mret [start_state].

End Planner.

(** * Vocabulary of the statements *)

(** The cell of the occupancy grid at row [r] and column [c]. *)
Definition cell (p : RRTPlanner) (r c : Z) : option Z :=
  if (r <? 0) || (c <? 0) then None
  else row ← occ_grid p !! Z.to_nat r; row !! Z.to_nat c.

(** [parent_chain h a l]: following parent pointers from [a] in [h] visits
    exactly the nodes [l], [a] first, and ends at a node without parent. *)
Inductive parent_chain (h : list State) : addr -> list addr -> Prop :=
| chain_root a o :
    h !! a = Some o -> parent o = None -> parent_chain h a [a]
| chain_step a o p l :
    h !! a = Some o -> parent o = Some p -> parent_chain h p l ->
    parent_chain h a (a :: l).

Section Samples.

Variable np : NumpyMath.
Variable self : RRTPlanner.

(** The [i]-th point tested on the segment: the interpolation of
    [steer_algorithm] at [float(i) / max_checks] of the distance. *)
Definition segment_sample (o_from s_to : State) (max_checks : Z) (i : nat)
    : result (Z * Z) :=
  fi ← float_of_int (Z.of_nat i);
  fm ← float_of_int max_checks;
  d ← euclidean_distance o_from s_to;
  steer_algorithm np o_from s_to (rows self) (fi / fm * d)%float.

(** The [i]-th sample is computed and lies in free space. *)
Definition sample_passes (s_from : addr) (o_from s_to : State)
    (max_checks : Z) (i : nat) : Prop :=
  exists nx ny,
    segment_sample o_from s_to max_checks i = Ok (nx, ny) /\
    state_is_free self (State_init nx ny (Some s_from)) = true.

(** The [i]-th sample is computed and hits an obstacle. *)
Definition sample_fails (s_from : addr) (o_from s_to : State)
    (max_checks : Z) (i : nat) : Prop :=
  exists nx ny,
    segment_sample o_from s_to max_checks i = Ok (nx, ny) /\
    state_is_free self (State_init nx ny (Some s_from)) = false.

End Samples.

(** [same_place h tree s]: some member of the set has the coordinates of [s]. *)
Definition same_place (h : list State) (tree_nodes : list addr) (s : State)
    : Prop :=
  exists a o, a ∈ tree_nodes /\ h !! a = Some o /\ State_eq o s = true.

(** [s_nearest.children.append(s_new)] and [dest_state.parent = s_new], as
    functions on the object. *)
Definition add_child (o : State) (a : addr) : State :=
  mkState (x o) (y o) (parent o) (children o ++ [a]).
Definition set_parent (o : State) (a : addr) : State :=
  mkState (x o) (y o) (Some a) (children o).

(** What a round that ends normally has done.  Either the edge was refused
    and nothing changed; or the node [s_new] was inserted: it sits at the
    first unused address, the set has gone through [add], the nearest node
    has one more child, and the destination was re-parented exactly when the
    round broke out of the loop. *)
Definition round_effect (self : RRTPlanner) (fuel : nat) (dest_state : addr)
    (dest_reached_radius : float) (tree_nodes : list addr) (st : Store)
    (f : flow) (st' : Store) : Prop :=
  draws st' = S (S (draws st)) /\
  exists s_nearest near s_new,
    s_nearest ∈ tree_nodes /\ heap st !! s_nearest = Some near /\
    parent s_new = Some s_nearest /\ children s_new = [] /\
    ((f = Continue tree_nodes /\ heap st' = heap st) \/
     (state_is_free self s_new = true /\
      let a_new := length (heap st) in
      let h1 := heap st ++ [s_new] in
      let h2 := <[s_nearest := add_child near a_new]> h1 in
      ((same_place h1 tree_nodes s_new /\ tree_of f = tree_nodes) \/
       (~ same_place h1 tree_nodes s_new /\
        tree_of f = tree_nodes ++ [a_new])) /\
      exists d, h2 !! dest_state = Some d /\
        ((exists dist,
            f = Continue (tree_of f) /\ heap st' = h2 /\
            euclidean_distance s_new d = Ok dist /\
            (dist <? dest_reached_radius)%float = false) \/
         (exists path dist,
            f = Break (tree_of f) a_new path /\
            heap st' = <[dest_state := set_parent d a_new]> h2 /\
            _follow_parent_pointers fuel dest_state st' = Ok (path, st') /\
            euclidean_distance s_new d = Ok dist /\
            (dist <? dest_reached_radius)%float = true)))).

(** [o] is closer to [d] than the radius, as [plan] tests it; or it is not. *)
Definition within_radius (radius : float) (o d : State) : Prop :=
  exists dist, euclidean_distance o d = Ok dist /\ (dist <? radius)%float = true.
Definition outside_radius (radius : float) (o d : State) : Prop :=
  exists dist, euclidean_distance o d = Ok dist /\ (dist <? radius)%float = false.

(** Every object of [st] is still there in [st'], at the same coordinates. *)
Definition positions_kept (st st' : Store) : Prop :=
  forall a o, heap st !! a = Some o ->
    exists o', heap st' !! a = Some o' /\ x o' = x o /\ y o' = y o.

(** What has become of the destination object between two stores.  Its
    coordinates are what they were.  When the loop went on to its end, its
    parent is what it was, and no node inserted in between is within the
    radius.  When the loop was broken, its parent is the node that broke it:
    the last node inserted, within the radius, and the first to be so. *)
Definition goal_outcome (dest_state : addr) (dest_reached_radius : float)
    (st : Store) (f : flow) (st' : Store) : Prop :=
  exists d d',
    heap st !! dest_state = Some d /\ heap st' !! dest_state = Some d' /\
    x d' = x d /\ y d' = y d /\
    match f with
    | Continue _ =>
        parent d' = parent d /\
        forall a o,
          (length (heap st) <= a < length (heap st'))%nat ->
          heap st' !! a = Some o -> outside_radius dest_reached_radius o d'
    | Break _ s_new _ =>
        parent d' = Some s_new /\
        (length (heap st) <= s_new)%nat /\ length (heap st') = S s_new /\
        (exists o, heap st' !! s_new = Some o /\
                   within_radius dest_reached_radius o d') /\
        forall a o,
          (length (heap st) <= a < s_new)%nat ->
          heap st' !! a = Some o -> outside_radius dest_reached_radius o d'
    end.

(** [tree_path h start a l]: the parent pointers of [h] lead from [a] to
    [start] through exactly the nodes [l], [a] first and [start] last. *)
Inductive tree_path (h : list State) (start : addr)
    : addr -> list addr -> Prop :=
| path_root : tree_path h start start [start]
| path_step a o p l :
    a <> start -> h !! a = Some o -> parent o = Some p ->
    tree_path h start p l -> tree_path h start a (a :: l).

(** [rooted_tree start h tree]: the set holds the start; every other member
    has a parent, which is a member; and from every member the parent
    pointers lead to the start in finitely many steps, through members
    only: there is no cycle. *)
Definition rooted_tree (start : addr) (h : list State) (tree : list addr)
    : Prop :=
  start ∈ tree /\
  (forall a, a ∈ tree -> a <> start ->
     exists o p, h !! a = Some o /\ parent o = Some p /\ p ∈ tree) /\
  (forall a, a ∈ tree ->
     exists l, tree_path h start a l /\ forall b, b ∈ l -> b ∈ tree).

(** How one round changes the set, from heap [h] and set [tree] to [h'] and
    [tree']: members stay, in their order, and at most one comes in; a round
    that inserts no node leaves the set as it is; a round that inserts one
    (the heap has one more object, at its end) adds it to the set unless a
    member already has its coordinates, in which case the set is left as it
    is. *)
Definition round_growth (h : list State) (tree : list addr)
    (h' : list State) (tree' : list addr) : Prop :=
  tree `prefix_of` tree' /\
  (length tree <= length tree' <= S (length tree))%nat /\
  (length h' = length h \/ length h' = S (length h)) /\
  (length h' = length h -> tree' = tree) /\
  (length h' = S (length h) ->
     exists s_new,
       h' !! length h = Some s_new /\
       (same_place h tree s_new -> tree' = tree) /\
       (~ same_place h tree s_new -> tree' = tree ++ [length h])).

(** The invariant of the loop: the start is older than the call ([n0]
    objects existed then); the other members were made by the call and each
    has an older member as parent. *)
Definition tree_inv (n0 : nat) (start : addr) (h : list State)
    (tree : list addr) : Prop :=
  start ∈ tree /\ (start < n0 <= length h)%nat /\
  (forall a, a ∈ tree -> a <> start ->
     (n0 <= a)%nat /\
     exists o p, h !! a = Some o /\ parent o = Some p /\ p ∈ tree /\
                 (p < a)%nat).

(** The start is a root: it has no parent. *)
Definition root_inv (start : addr) (h : list State) : Prop :=
  exists o, h !! start = Some o /\ parent o = None.

(** * Worlds and runtimes of the worked examples *)

Definition white : pixel := (255, 255, 255).
Definition black : pixel := (0, 0, 0).

(** A map of [nr] rows and [nc] columns painted in one colour: all free when
    white, all occupied when black. *)
Definition uniform_world (px : pixel) (nr nc : nat) : RRTPlanner :=
  {| world := repeat (repeat px nc) nr |}.

(** The set enumerated in insertion order. *)
Definition insertion_order : SetOrder :=
  {| py_list := fun _ l => l; py_list_perm := fun _ l => reflexivity l |}.

(** First-order stand-ins for numpy's functions, for the worked examples
    that need a closed runtime; the segments of those examples are vertical,
    and on a vertical segment [steer_algorithm] calls none of the three. *)
Definition first_order_math : NumpyMath :=
  {| np_arctan := fun t => t; np_sin := fun t => t; np_cos := fun _ => one |}.


(** A free 40 x 40 map; the start (10, 10) is object 0 and the destination
    object 1; the generator yields 10 first and 20 ever after, so that the
    first sample is (10, 20). *)
Definition open_field : RRTPlanner := uniform_world white 40 40.
Definition ten_then_twenty (n : nat) : Z :=
  match n with O => 10 | _ => 20 end.
Definition always_ten (n : nat) : Z := 10.
Definition two_objects (gx gy : Z) : Store :=
  mkStore [State_init 10 10 None; State_init gx gy None] 0.

(** * Vocabulary of the further properties *)

(** [closed_under_parent h P]: in [h] every node of the family [P] has a parent, and
    the parent is in the family again: parent pointers never leave it. *)
Definition closed_under_parent (h : list State) (P : addr -> Prop) : Prop :=
  forall b, P b ->
    exists o p, h !! b = Some o /\ parent o = Some p /\ P p.

(** [objects_grow dest st st']: every object of [st] is still there in
    [st'], at the same coordinates, with the children it had, in their
    order, perhaps followed by more, and with the parent it had, the
    destination apart. *)
Definition objects_grow (dest : addr) (st st' : Store) : Prop :=
  (length (heap st) <= length (heap st'))%nat /\
  forall b ob, heap st !! b = Some ob ->
    exists ob', heap st' !! b = Some ob' /\
      x ob' = x ob /\ y ob' = y ob /\
      (b <> dest -> parent ob' = parent ob) /\
      children ob `prefix_of` children ob'.

(** No two members of the set are at the same coordinates. *)
Definition distinct_places (h : list State) (tree : list addr) : Prop :=
  forall i j a b oa ob,
    tree !! i = Some a -> tree !! j = Some b ->
    h !! a = Some oa -> h !! b = Some ob ->
    State_eq oa ob = true -> i = j.

(** Every member of the set is an object in free space. *)
Definition all_free (self : RRTPlanner) (h : list State) (tree : list addr)
    : Prop :=
  forall a, a ∈ tree ->
    exists o, h !! a = Some o /\ state_is_free self o = true.

(** The nodes attached to the tree since the store held [n0] objects are
    linked both ways: each has a parent, and is among the children of that
    parent. *)
Definition links_consistent (n0 : nat) (h : list State) : Prop :=
  forall a, (n0 <= a < length h)%nat ->
    exists o p op,
      h !! a = Some o /\ parent o = Some p /\
      h !! p = Some op /\ a ∈ children op.

(** What [find_closest_state] was asked and what it found: [a] is a node of
    the list, at distance [da] of [state], and no node of the list is at a
    distance below [da]. *)
Definition closest_among (h : list State) (nodes : list addr)
    (state : State) (a : addr) : Prop :=
  a ∈ nodes /\
  exists o da,
    h !! a = Some o /\ euclidean_distance o state = Ok da /\
    forall n o' dn,
      n ∈ nodes -> h !! n = Some o' ->
      euclidean_distance o' state = Ok dn -> (dn <? da)%float = false.

(** A store with two nodes that are each other's parent. *)
Definition two_cycle : Store :=
  mkStore [State_init 10 10 (Some 1%nat); State_init 10 20 (Some 0%nat)] 0.

(** The store [two_objects 10 25] after one round that samples (10, 20):
    the node (10, 20) is object 2, child of the start and parent of the
    destination; two numbers were drawn. *)
Definition after_one_round : Store :=
  mkStore [mkState 10 10 None [2%nat]; mkState 10 25 (Some 2%nat) [];
           mkState 10 20 (Some 0%nat) []] 2.

(** A black map: every cell is occupied. *)
Definition walled_field : RRTPlanner := uniform_world black 40 40.

(** * Collision detection: [state_is_free] *)

Section Slices.

Context {A : Type}.

Lemma py_slice_wraps_to_empty (n i : Z) (l : list A) :
  10 <= n -> -5 <= i < 5 -> py_slice n (i - 5) (i + 5) l = [].
Proof.
  intros Hn Hi. unfold py_slice, slice_index.
  destruct (Z.ltb_spec (i - 5) 0); [|lia].
  destruct (Z.ltb_spec (i + 5) 0); [lia|].
  replace (Z.to_nat (Z.min (i + 5) n - Z.max (i - 5 + n) 0)) with 0%nat by lia.
  reflexivity.
Qed.

Lemma py_slice_inside (n i : Z) (l : list A) :
  5 <= i ->
  py_slice n (i - 5) (i + 5) l =
  take (Z.to_nat (Z.min (i + 5) n - Z.min (i - 5) n))
       (drop (Z.to_nat (Z.min (i - 5) n)) l).
Proof.
  intros Hi. unfold py_slice, slice_index.
  destruct (Z.ltb_spec (i - 5) 0); [lia|].
  destruct (Z.ltb_spec (i + 5) 0); [lia|]. reflexivity.
Qed.

End Slices.

Lemma rows_nonneg (p : RRTPlanner) : 0 <= rows p.
Proof. unfold rows. lia. Qed.

Lemma cols_nonneg (p : RRTPlanner) : 0 <= cols p.
Proof. unfold cols. destruct (world p); lia. Qed.

Lemma occ_grid_rows (p : RRTPlanner) :
  Z.of_nat (length (occ_grid p)) = rows p.
Proof. unfold occ_grid, rows. now rewrite length_map. Qed.

Lemma forallb_all_nil {A} (f : A -> bool) (ls : list (list A)) :
  Forall (fun l => l = []) ls -> forallb (forallb f) ls = true.
Proof. induction 1 as [|l ls -> _ IH]; simpl; auto. Qed.

(** C9, as the code has it: on a map with more than 10 rows and more than
    10 columns, a state whose x or whose y lies in [-5, 5), so every state
    on the map with x < 5 or y < 5, is reported free whatever the occupancy
    values: the slice starts at a negative index and stops at a positive
    one, the window it selects holds no cell, and [all] of nothing is
    true. *)
Theorem state_is_free_near_origin (p : RRTPlanner) (s : State) :
  10 < rows p -> 10 < cols p ->
  (-5 <= x s < 5 \/ -5 <= y s < 5) ->
  state_is_free p s = true.
Proof.
  intros Hr Hc [Hx|Hy]; unfold state_is_free, slice2d.
  - apply forallb_all_nil, Forall_forall. intros l Hl.
    apply list_elem_of_In, in_map_iff in Hl as (row & <- & _).
    apply py_slice_wraps_to_empty; lia.
  - rewrite py_slice_wraps_to_empty by lia. reflexivity.
Qed.

Lemma state_is_free_near_origin_witness :
  state_is_free (uniform_world black 20 20) (State_init 2 13 None) = true.
Proof.
  apply (state_is_free_near_origin (uniform_world black 20 20)
           (State_init 2 13 None)); vm_compute; intuition congruence.
Defined.

(** C9 as stated fails below -5: on a 20 x 20 map with every cell occupied,
    the state (-6, 10) has x < 5, but its slice [-11:-1] of the columns is
    columns 9 to 18 and its rows are 5 to 14: the window is full of
    occupied cells and the answer is false. *)
Lemma state_is_free_left_of_the_map :
  x (State_init (-6) 10 None) < 5 /\
  state_is_free (uniform_world black 20 20) (State_init (-6) 10 None) = false.
Proof. split; vm_compute; reflexivity. Qed.

(** C4, where the code departs from it: the point (2, 2) of a 20 x 20 map
    is in range and every cell of the map, the point included, is occupied,
    yet [state_is_free] answers true; at (10, 10) of the same map it
    answers false. *)
Theorem state_is_free_occupied_border_point :
  let p := uniform_world black 20 20 in
  let s := State_init 2 2 None in
  (0 <= x s < cols p /\ 0 <= y s < rows p) /\
  Forall (Forall (fun c => c = 1)) (occ_grid p) /\
  state_is_free p s = true /\
  state_is_free p (State_init 10 10 None) = false.
Proof.
  vm_compute. repeat split; try congruence.
  repeat (constructor; [repeat constructor|]). constructor.
Qed.

Lemma in_take_drop {A} (l : list A) (lo hi : Z) (v : A) :
  0 <= lo ->
  In v (take (Z.to_nat (hi - lo)) (drop (Z.to_nat lo) l)) <->
  exists i, lo <= i < hi /\ l !! Z.to_nat i = Some v.
Proof.
  intros Hlo. rewrite <- list_elem_of_In, list_elem_of_lookup. split.
  - intros [k Hk]. apply lookup_take_Some in Hk as [Hk Hlt].
    rewrite lookup_drop in Hk.
    exists (lo + Z.of_nat k). split; [lia|].
    now replace (Z.to_nat (lo + Z.of_nat k)) with (Z.to_nat lo + k)%nat by lia.
  - intros (i & Hi & Hv). exists (Z.to_nat (i - lo)).
    apply lookup_take_Some. split; [|lia].
    rewrite lookup_drop.
    now replace (Z.to_nat lo + Z.to_nat (i - lo))%nat with (Z.to_nat i) by lia.
Qed.

(** X2: away from the low borders the test is what its docstring says: true iff
    every cell of the grid in rows [y - 5 .. y + 4] and columns
    [x - 5 .. x + 4] is 0. *)
Lemma state_is_free_interior (p : RRTPlanner) (s : State) :
  5 <= x s -> 5 <= y s ->
  state_is_free p s = true <->
  forall r c v,
    y s - 5 <= r < y s + 5 -> x s - 5 <= c < x s + 5 -> c < cols p ->
    cell p r c = Some v -> v = 0.
Proof.
  intros Hx Hy. unfold state_is_free, slice2d.
  pose proof (rows_nonneg p) as Hrn. pose proof (cols_nonneg p) as Hcn.
  rewrite !py_slice_inside by assumption.
  rewrite forallb_forall. split.
  - intros H r c v Hr Hc Hcols Hcell. unfold cell in Hcell.
    destruct (Z.ltb_spec r 0); [lia|]. destruct (Z.ltb_spec c 0); [lia|].
    simpl in Hcell.
    destruct (occ_grid p !! Z.to_nat r) as [row|] eqn:Hrow; [|discriminate].
    simpl in Hcell.
    assert (Hrows : r < rows p).
    { apply lookup_lt_Some in Hrow. rewrite <- occ_grid_rows. lia. }
    specialize (H (py_slice (cols p) (x s - 5) (x s + 5) row)).
    rewrite py_slice_inside in H by assumption.
    rewrite forallb_forall in H.
    apply Z.eqb_eq, H.
    + apply in_map_iff. exists row. split; [apply py_slice_inside; lia|].
      apply in_take_drop; [lia|]. exists r. split; [lia|assumption].
    + apply in_take_drop; [lia|]. exists c. split; [lia|assumption].
  - intros H l Hl. apply in_map_iff in Hl as (row & <- & Hrow).
    apply in_take_drop in Hrow as (r & Hr & Hrow); [|lia].
    rewrite py_slice_inside by assumption.
    apply forallb_forall. intros v Hv.
    apply in_take_drop in Hv as (c & Hc & Hv); [|lia].
    apply Z.eqb_eq, (H r c); [lia..|].
    unfold cell.
    destruct (Z.ltb_spec r 0); [lia|]. destruct (Z.ltb_spec c 0); [lia|].
    simpl. rewrite Hrow. exact Hv.
Qed.

(** * Reasoning about computations *)

Lemma result_bind_Ok {A B} (r : result A) (k : A -> result B) (b : B) :
  r ≫= k = Ok b -> exists a, r = Ok a /\ k a = Ok b.
Proof. destruct r; simpl; try discriminate. eauto. Qed.

Lemma M_bind_Ok {A B} (m : M A) (k : A -> M B) st (b : B) st' :
  (m ≫= k) st = Ok (b, st') ->
  exists a st1, m st = Ok (a, st1) /\ k a st1 = Ok (b, st').
Proof.
  unfold mbind, M_bind. intros H.
  apply result_bind_Ok in H as ([a st1] & Hm & Hk). eauto.
Qed.

Lemma M_bind_eq {A B} (m : M A) (k : A -> M B) st a st1 :
  m st = Ok (a, st1) -> (m ≫= k) st = k a st1.
Proof. unfold mbind, M_bind. now intros ->. Qed.

Lemma M_ret_Ok {A} (a b : A) st st' :
  (mret a : M A) st = Ok (b, st') -> b = a /\ st' = st.
Proof. unfold mret, M_ret. intros [= -> ->]. auto. Qed.

Lemma lift_Ok {A} (r : result A) st (a : A) st' :
  lift r st = Ok (a, st') -> r = Ok a /\ st' = st.
Proof. unfold lift. destruct r; simpl; try discriminate. intros [= -> ->]. auto. Qed.


Lemma py_assert_Ok (c : bool) (u : unit) : py_assert c = Ok u -> c = true.
Proof. destruct c; [reflexivity|discriminate]. Qed.

Lemma get_obj_Ok a st o st' :
  get_obj a st = Ok (o, st') -> heap st !! a = Some o /\ st' = st.
Proof.
  unfold get_obj. destruct (heap st !! a); [|discriminate].
  intros [= -> ->]. auto.
Qed.

Lemma get_obj_eq a st o : heap st !! a = Some o -> get_obj a st = Ok (o, st).
Proof. unfold get_obj. now intros ->. Qed.

Lemma set_obj_Ok a o st u st' :
  set_obj a o st = Ok (u, st') ->
  is_Some (heap st !! a) /\
  st' = mkStore (<[a := o]> (heap st)) (draws st).
Proof.
  unfold set_obj. destruct (heap st !! a) eqn:E; [|discriminate].
  intros [= _ <-]. eauto.
Qed.

Lemma alloc_Ok o st a st' :
  alloc o st = Ok (a, st') ->
  a = length (heap st) /\ st' = mkStore (heap st ++ [o]) (draws st).
Proof. unfold alloc. intros [= <- <-]. auto. Qed.

(** Takes the first step off a successful run: [a] is what the step
    returned, [H1] what is known of it; a step that only reads the store
    leaves the store's name in place. *)
Tactic Notation "inv_bind" hyp(H) "as" ident(a) ident(H1) :=
  let st1 := fresh "st" in
  apply M_bind_Ok in H as (a & st1 & H1 & H);
  first [ apply get_obj_Ok in H1 as [H1 ->]
        | apply lift_Ok in H1 as [H1 ->]
        | idtac ].

(** * Path extraction: [_follow_parent_pointers] *)

Lemma follow_loop_None fuel path st :
  follow_loop fuel None path st = Ok (path, st).
Proof. destruct fuel; reflexivity. Qed.

Lemma follow_loop_chain st a l :
  parent_chain (heap st) a l ->
  forall fuel path, (length l <= fuel)%nat ->
  follow_loop fuel (Some a) path st = Ok (path ++ l, st).
Proof.
  induction 1 as [a o Ha Hp | a o p l Ha Hp _ IH]; intros fuel path Hfuel;
    (destruct fuel as [|fuel]; [simpl in Hfuel; lia|]); simpl.
  - rewrite (M_bind_eq _ _ _ _ _ (get_obj_eq _ _ _ Ha)), Hp.
    apply follow_loop_None.
  - rewrite (M_bind_eq _ _ _ _ _ (get_obj_eq _ _ _ Ha)), Hp.
    rewrite IH by (simpl in Hfuel; lia). now rewrite <- app_assoc.
Qed.

(** On a well-formed chain the extractor returns, and what it returns is
    the reversed chain followed by the terminal state once more. *)
Lemma follow_parent_pointers_chain st a l fuel :
  parent_chain (heap st) a l -> (length l <= fuel)%nat ->
  _follow_parent_pointers fuel a st = Ok (rev l ++ [a], st).
Proof.
  intros Hc Hfuel. unfold _follow_parent_pointers.
  rewrite (M_bind_eq _ _ _ _ _ (follow_loop_chain st a l Hc fuel [a] Hfuel)).
  reflexivity.
Qed.

(** C5, where the code departs from it: on the two-node tree
    [root <- child] the chain from [child] is [child; root], each node once,
    and its reverse is [root; child]; the extractor returns
    [root; child; child]. *)
Theorem follow_parent_pointers_repeats_terminal :
  let root := State_init 10 10 None in
  let child := State_init 10 20 (Some 0%nat) in
  let st := mkStore [root; child] 0 in
  parent_chain (heap st) 1%nat [1; 0]%nat /\
  _follow_parent_pointers 5 1%nat st = Ok ([0; 1; 1]%nat, st) /\
  _follow_parent_pointers 5 1%nat st <> Ok (rev [1; 0]%nat, st).
Proof.
  simpl. split; [|split].
  - eapply chain_step; [reflexivity..|]. eapply chain_root; reflexivity.
  - reflexivity.
  - vm_compute. congruence.
Qed.

(** * The segment test: [path_is_obstacle_free] *)

Section Segment.

Variable np : NumpyMath.
Variable self : RRTPlanner.

Lemma checks_loop_cons s_from o_from s_to max_checks i rest :
  checks_loop np self s_from o_from s_to max_checks (i :: rest) =
  pt ← segment_sample np self o_from s_to max_checks i;
  if negb (state_is_free self (State_init pt.1 pt.2 (Some s_from)))
  then Ok false
  else checks_loop np self s_from o_from s_to max_checks rest.
Proof.
  simpl. unfold segment_sample.
  destruct (float_of_int (Z.of_nat i)); simpl; try reflexivity.
  destruct (float_of_int max_checks); simpl; try reflexivity.
  destruct (euclidean_distance o_from s_to); simpl; try reflexivity.
  destruct (steer_algorithm _ _ _ _ _) as [[nx ny]| | |]; reflexivity.
Qed.

Lemma checks_loop_all_pass s_from o_from s_to max_checks range :
  Forall (sample_passes np self s_from o_from s_to max_checks) range ->
  checks_loop np self s_from o_from s_to max_checks range = Ok true.
Proof.
  induction 1 as [|i rest (nx & ny & Hs & Hfree) _ IH]; [reflexivity|].
  rewrite checks_loop_cons, Hs. simpl. now rewrite Hfree.
Qed.

Lemma checks_loop_first_failure s_from o_from s_to max_checks before i after :
  Forall (sample_passes np self s_from o_from s_to max_checks) before ->
  sample_fails np self s_from o_from s_to max_checks i ->
  checks_loop np self s_from o_from s_to max_checks (before ++ i :: after)
  = Ok false.
Proof.
  intros Hbefore (nx & ny & Hs & Hocc).
  induction Hbefore as [|j rest (mx & my & Hj & Hfree) _ IH]; simpl app.
  - rewrite checks_loop_cons, Hs. simpl. now rewrite Hocc.
  - rewrite checks_loop_cons, Hj. simpl. now rewrite Hfree.
Qed.

Lemma checks_loop_true_inv s_from o_from s_to max_checks range :
  checks_loop np self s_from o_from s_to max_checks range = Ok true ->
  Forall (sample_passes np self s_from o_from s_to max_checks) range.
Proof.
  induction range as [|i rest IH]; [constructor|].
  rewrite checks_loop_cons. intros H.
  apply result_bind_Ok in H as ([nx ny] & Hs & H). simpl in H.
  destruct (state_is_free self (State_init nx ny (Some s_from))) eqn:Hfree;
    simpl in H; [|discriminate].
  constructor; [|auto]. exists nx, ny. auto.
Qed.

(** C3: with [s_from] free, [path_is_obstacle_free] (a) answers false at
    once when [s_to] is not free, without looking at the segment;
    otherwise it tests the ten points interpolated by [steer_algorithm] at
    the fractions 0/10 .. 9/10 of the distance, and (b) answers false at the
    first of them that is not free, (c) answers true when all ten are free,
    and (d) answers true in no other case.  The store is left as it was. *)
Theorem path_is_obstacle_free_spec (s_from : addr) (o_from s_to : State) st :
  heap st !! s_from = Some o_from ->
  state_is_free self o_from = true ->
  (state_is_free self s_to = false ->
     path_is_obstacle_free np self s_from s_to st = Ok (false, st)) /\
  (state_is_free self s_to = true ->
     forall i, (i < 10)%nat ->
       (forall j, (j < i)%nat -> sample_passes np self s_from o_from s_to 10 j) ->
       sample_fails np self s_from o_from s_to 10 i ->
       path_is_obstacle_free np self s_from s_to st = Ok (false, st)) /\
  (state_is_free self s_to = true ->
     (forall i, (i < 10)%nat -> sample_passes np self s_from o_from s_to 10 i) ->
     path_is_obstacle_free np self s_from s_to st = Ok (true, st)) /\
  (forall st',
     path_is_obstacle_free np self s_from s_to st = Ok (true, st') ->
     st' = st /\ state_is_free self s_to = true /\
     forall i, (i < 10)%nat -> sample_passes np self s_from o_from s_to 10 i).
Proof.
  intros Hfrom Hfree.
  assert (Hrun : path_is_obstacle_free np self s_from s_to st =
                 if negb (state_is_free self s_to) then Ok (false, st)
                 else lift (checks_loop np self s_from o_from s_to 10
                              (seq 0 10)) st).
  { unfold path_is_obstacle_free.
    rewrite (M_bind_eq _ _ _ _ _ (get_obj_eq _ _ _ Hfrom)).
    rewrite Hfree. simpl. destruct (state_is_free self s_to); reflexivity. }
  rewrite Hrun. repeat split.
  - now intros ->.
  - intros -> i Hi Hbefore Hfail. simpl negb. cbv iota.
    replace (seq 0 10) with (seq 0 i ++ i :: seq (S i) (10 - S i)).
    + rewrite checks_loop_first_failure; [reflexivity| |assumption].
      apply Forall_forall. intros j Hj%list_elem_of_In%in_seq. apply Hbefore. lia.
    + change (i :: seq (S i) (10 - S i)) with (seq i (S (10 - S i))).
      rewrite <- seq_app. f_equal. lia.
  - intros -> Hall. simpl negb. cbv iota.
    rewrite checks_loop_all_pass; [reflexivity|].
    apply Forall_forall. intros j Hj%list_elem_of_In%in_seq. apply Hall. lia.
  - destruct (state_is_free self s_to); unfold negb in H; [|discriminate].
    now apply lift_Ok in H as [_ ->].
  - destruct (state_is_free self s_to); unfold negb in H;
      [reflexivity|discriminate].
  - destruct (state_is_free self s_to); unfold negb in H; [|discriminate].
    apply lift_Ok in H as [H _]. apply checks_loop_true_inv in H.
    intros i Hi. rewrite Forall_forall in H. apply H.
    apply list_elem_of_In, in_seq. lia.
Qed.

End Segment.

Lemma path_is_obstacle_free_spec_witness :
  let self := uniform_world white 100 100 in
  let st := mkStore [State_init 50 50 None] 0 in
  path_is_obstacle_free first_order_math self 0%nat (State_init 50 90 None) st
  = Ok (true, st).
Proof.
  set (o_from := State_init 50 50 None).
  destruct (path_is_obstacle_free_spec first_order_math
              (uniform_world white 100 100) 0%nat o_from
              (State_init 50 90 None) (mkStore [o_from] 0))
    as (_ & _ & Hall & _); [reflexivity| vm_compute; reflexivity |].
  apply Hall; [vm_compute; reflexivity|].
  intros i Hi.
  do 10 (destruct i as [|i];
         [eexists _, _; split; vm_compute; reflexivity|]).
  lia.
Defined.

(** * Steering: [steer_towards] *)

Section Steering.

Variable np : NumpyMath.
Variable self : RRTPlanner.



(** The two vertical cases of the specification, on a map of 100 rows: from
    (50, 50) with radius 20, the target (50, 10) gives (50, 30) and the
    target (50, 90) gives (50, 70), whatever numpy's functions are. *)
Lemma steer_towards_vertical :
  let w := uniform_world white 100 100 in
  let st := mkStore [State_init 50 50 None] 0 in
  steer_towards np w 0%nat (State_init 50 10 None) 20 st
    = Ok (State_init 50 30 (Some 0%nat), st) /\
  steer_towards np w 0%nat (State_init 50 90 None) 20 st
    = Ok (State_init 50 70 (Some 0%nat), st).
Proof. split; vm_compute; reflexivity. Qed.

End Steering.




(** * What the helpers of [plan] do to the store *)

Lemma np_random_randint_Ok rnd low high st v st' :
  np_random_randint rnd low high st = Ok (v, st') ->
  heap st' = heap st /\ draws st' = S (draws st).
Proof.
  unfold np_random_randint. destruct (high <=? low); [discriminate|].
  intros [= _ <-]. auto.
Qed.

Lemma sample_state_Ok rnd self st s st' :
  sample_state rnd self st = Ok (s, st') ->
  heap st' = heap st /\ draws st' = S (S (draws st)).
Proof.
  unfold sample_state. intros H.
  apply M_bind_Ok in H as (nx & st1 & H1 & H).
  apply M_bind_Ok in H as (ny & st2 & H2 & H).
  apply M_ret_Ok in H as [_ ->].
  apply np_random_randint_Ok in H1 as [Hh1 Hd1].
  apply np_random_randint_Ok in H2 as [Hh2 Hd2].
  split; congruence.
Qed.

Lemma follow_loop_Ok fuel : forall curr path st r st',
  follow_loop fuel curr path st = Ok (r, st') -> st' = st.
Proof.
  induction fuel as [|fuel IH]; intros [a|] path st r st' H; simpl in H;
    try discriminate; try (now apply M_ret_Ok in H as [_ ->]).
  inv_bind H as o Ho. eauto.
Qed.

Lemma follow_parent_pointers_Ok fuel a st r st' :
  _follow_parent_pointers fuel a st = Ok (r, st') -> st' = st.
Proof.
  unfold _follow_parent_pointers. intros H.
  apply M_bind_Ok in H as (path & st1 & H1 & H).
  apply M_ret_Ok in H as [_ ->]. eapply follow_loop_Ok, H1.
Qed.

Lemma closest_loop_Ok nodes state : forall closest min_dist st r st',
  closest_loop nodes state closest min_dist st = Ok (r, st') ->
  st' = st /\ (r = closest \/ exists a, r = Some a /\ a ∈ nodes).
Proof.
  induction nodes as [|node rest IH]; intros closest min_dist st r st' H;
    simpl in H.
  - apply M_ret_Ok in H as [-> ->]. auto.
  - inv_bind H as o Ho. inv_bind H as dist Hdist.
    destruct (dist <? min_dist)%float; apply IH in H as [-> [->|(a & -> & Ha)]];
      split; auto; right; eexists; split; eauto;
      apply elem_of_cons; auto.
Qed.

Lemma find_closest_state_Ok nodes state st r st' :
  find_closest_state nodes state st = Ok (r, st') ->
  st' = st /\ forall a, r = Some a -> a ∈ nodes.
Proof.
  intros H. apply closest_loop_Ok in H as [-> [->|(a & -> & Ha)]].
  - split; [reflexivity|discriminate].
  - split; [reflexivity|]. now intros ? [= <-].
Qed.

Lemma steer_towards_Ok np self s_nearest s_rand r st s_new st' :
  steer_towards np self s_nearest s_rand r st = Ok (s_new, st') ->
  st' = st /\ is_Some (heap st !! s_nearest) /\
  parent s_new = Some s_nearest /\ children s_new = [].
Proof.
  unfold steer_towards. intros H.
  inv_bind H as near Hnear. inv_bind H as d Hd.
  apply M_bind_Ok in H as ([nx ny] & st1 & H1 & H).
  apply M_ret_Ok in H as [-> ->].
  assert (st1 = st) as ->.
  { destruct (d <=? r)%float.
    - now apply M_ret_Ok in H1 as [_ ->].
    - now apply lift_Ok in H1 as [_ ->]. }
  repeat split; eauto.
Qed.

Lemma path_is_obstacle_free_Ok np self s_from s_to st (b : bool) st' :
  path_is_obstacle_free np self s_from s_to st = Ok (b, st') ->
  st' = st /\ (b = true -> state_is_free self s_to = true).
Proof.
  unfold path_is_obstacle_free. intros H.
  inv_bind H as o_from Hfrom. inv_bind H as u Hu.
  destruct (state_is_free self s_to); simpl in H.
  - apply lift_Ok in H as [_ ->]. auto.
  - apply M_ret_Ok in H as [-> ->]. split; [reflexivity|discriminate].
Qed.

Lemma set_contains_Ok tree s : forall st (b : bool) st',
  set_contains tree s st = Ok (b, st') ->
  st' = st /\ (if b then same_place (heap st) tree s
               else ~ same_place (heap st) tree s).
Proof.
  induction tree as [|a rest IH]; intros st b st' H; simpl in H.
  - apply M_ret_Ok in H as [-> ->]. split; [reflexivity|].
    intros (a & o & Ha%elem_of_nil & _). exact Ha.
  - inv_bind H as m Hm. destruct (State_eq m s) eqn:Heq.
    + apply M_ret_Ok in H as [-> ->]. split; [reflexivity|].
      exists a, m. split; [apply elem_of_cons; auto|auto].
    + apply IH in H as [-> Hb]. split; [reflexivity|].
      destruct b.
      * destruct Hb as (a' & o & Ha' & Ho & Hs). exists a', o.
        split; [apply elem_of_cons; auto|auto].
      * intros (a' & o & Ha' & Ho & Hs). apply Hb.
        apply elem_of_cons in Ha' as [->|Ha'].
        -- congruence.
        -- exists a', o. auto.
Qed.

Lemma set_add_Ok tree a st tree' st' :
  set_add tree a st = Ok (tree', st') ->
  st' = st /\
  exists s, heap st !! a = Some s /\
    ((same_place (heap st) tree s /\ tree' = tree) \/
     (~ same_place (heap st) tree s /\ tree' = tree ++ [a])).
Proof.
  unfold set_add. intros H. inv_bind H as s Hs.
  apply M_bind_Ok in H as (found & st1 & H1 & H).
  apply set_contains_Ok in H1 as [-> Hfound].
  apply M_ret_Ok in H as [-> ->]. split; [reflexivity|].
  exists s. split; [assumption|]. destruct found; auto.
Qed.

(** * One round of the loop of [plan] *)

Section Rounds.

Variable np : NumpyMath.
Variable rnd : nat -> Z.
Variable order : SetOrder.
Variable self : RRTPlanner.

Lemma plan_iteration_Ok fuel dest r gr tree st f st' :
  plan_iteration np rnd order self fuel dest r gr tree st = Ok (f, st') ->
  round_effect self fuel dest gr tree st f st'.
Proof.
  unfold plan_iteration. intros H.
  apply M_bind_Ok in H as (s_rand & st1 & Hs & H).
  apply sample_state_Ok in Hs as [Hh1 Hd1].
  apply M_bind_Ok in H as (nodes & st2 & Hn & H).
  unfold list_of_set in Hn. injection Hn as <- <-.
  apply M_bind_Ok in H as (closest & st3 & Hc & H).
  apply find_closest_state_Ok in Hc as [-> Hc].
  apply M_bind_Ok in H as (s_nearest & st4 & Hsn & H).
  destruct closest as [a|];
    [apply M_ret_Ok in Hsn as [-> ->]
    |apply lift_Ok in Hsn as [Hsn _]; discriminate].
  specialize (Hc a eq_refl). rewrite (py_list_perm order) in Hc.
  apply M_bind_Ok in H as (s_new & st5 & Hst & H).
  apply steer_towards_Ok in Hst as (-> & [near Hnear] & Hpar & Hch).
  apply M_bind_Ok in H as (free & st6 & Hfree & H).
  apply path_is_obstacle_free_Ok in Hfree as [-> Hfree].
  destruct st1 as [h1 n1]. simpl in Hh1, Hd1. subst h1 n1. simpl in *.
  split.
  { destruct free.
    - apply M_bind_Ok in H as (a_new & st7 & Ha & H).
      apply alloc_Ok in Ha as [-> ->].
      apply M_bind_Ok in H as (tree' & st8 & Hadd & H).
      apply set_add_Ok in Hadd as (-> & _).
      inv_bind H as near' Hnear'.
      apply M_bind_Ok in H as (u & st9 & Hset & H).
      apply set_obj_Ok in Hset as [_ ->].
      inv_bind H as d Hd. inv_bind H as dist Hdist.
      destruct (dist <? gr)%float.
      + apply M_bind_Ok in H as (u2 & st10 & Hset2 & H).
        apply set_obj_Ok in Hset2 as [_ ->].
        apply M_bind_Ok in H as (path & st11 & Hf & H).
        apply follow_parent_pointers_Ok in Hf as ->.
        now apply M_ret_Ok in H as [_ ->].
      + now apply M_ret_Ok in H as [_ ->].
    - now apply M_ret_Ok in H as [_ ->]. }
  exists a, near, s_new. repeat (split; [assumption|]).
  destruct free.
  - right. split; [auto|].
    apply M_bind_Ok in H as (a_new & st7 & Ha & H).
    apply alloc_Ok in Ha as [-> ->].
    apply M_bind_Ok in H as (tree' & st8 & Hadd & H).
    apply set_add_Ok in Hadd as (-> & s & Hs & Hcase). simpl in *.
    rewrite lookup_app_r, Nat.sub_diag in Hs by lia. injection Hs as <-.
    inv_bind H as near' Hnear'. simpl in Hnear'.
    rewrite lookup_app_l in Hnear' by (eapply lookup_lt_Some, Hnear).
    assert (near' = near) as -> by congruence.
    apply M_bind_Ok in H as (u & st9 & Hset & H).
    apply set_obj_Ok in Hset as [_ ->].
    inv_bind H as d Hd. inv_bind H as dist Hdist. simpl in *.
    destruct (dist <? gr)%float eqn:Hlt.
    + apply M_bind_Ok in H as (u2 & st10 & Hset2 & H).
      apply set_obj_Ok in Hset2 as [_ ->].
      apply M_bind_Ok in H as (path & st11 & Hf & H).
      pose proof (follow_parent_pointers_Ok _ _ _ _ _ Hf) as ->.
      apply M_ret_Ok in H as [-> ->]. simpl.
      split; [exact Hcase|]. exists d. split; [exact Hd|].
      right. exists path, dist. auto.
    + apply M_ret_Ok in H as [-> ->]. simpl.
      split; [exact Hcase|]. exists d. split; [exact Hd|].
      left. exists dist. auto.
  - left. apply M_ret_Ok in H as [-> ->]. auto.
Qed.

End Rounds.

(** * The destination object across the loop *)

Lemma euclidean_distance_ext (o o' d d' : State) :
  x o' = x o -> y o' = y o -> x d' = x d -> y d' = y d ->
  euclidean_distance o' d' = euclidean_distance o d.
Proof. unfold euclidean_distance. now intros -> -> -> ->. Qed.

Lemma outside_radius_ext radius (o o' d d' : State) :
  x o' = x o -> y o' = y o -> x d' = x d -> y d' = y d ->
  outside_radius radius o d -> outside_radius radius o' d'.
Proof.
  intros Hx Hy Hx' Hy' (dist & Hd & Hlt). exists dist.
  now rewrite (euclidean_distance_ext o o' d d').
Qed.

Lemma positions_kept_refl st : positions_kept st st.
Proof. intros a o Ho. eauto. Qed.

Lemma positions_kept_trans st1 st2 st3 :
  positions_kept st1 st2 -> positions_kept st2 st3 -> positions_kept st1 st3.
Proof.
  intros H12 H23 a o Ho.
  destruct (H12 a o Ho) as (o2 & Ho2 & Hx2 & Hy2).
  destruct (H23 a o2 Ho2) as (o3 & Ho3 & Hx3 & Hy3).
  exists o3. repeat split; congruence.
Qed.

Lemma positions_kept_insert (h : list State) (a : addr) (o new : State) :
  h !! a = Some o -> x new = x o -> y new = y o ->
  forall b ob, h !! b = Some ob ->
    exists ob', <[a := new]> h !! b = Some ob' /\ x ob' = x ob /\ y ob' = y ob.
Proof.
  intros Ha Hx Hy b ob Hb. destruct (decide (a = b)) as [->|Hne].
  - exists new. rewrite list_lookup_insert_eq by (eapply lookup_lt_Some, Hb).
    assert (ob = o) as -> by congruence. auto.
  - exists ob. rewrite list_lookup_insert_ne by assumption. auto.
Qed.

Lemma round_heap_length self fuel dest gr tree st f st' :
  round_effect self fuel dest gr tree st f st' ->
  (length (heap st) <= length (heap st') <= S (length (heap st)))%nat.
Proof.
  intros (_ & a & near & s_new & _ & _ & _ & _ & [[_ ->]|(_ & H)]); [lia|].
  simpl in H.
  destruct H as (_ & d & _ & [(? & _ & -> & _)|(? & ? & _ & -> & _)]);
    rewrite ?length_insert, length_app; simpl; lia.
Qed.

Lemma round_positions_kept self fuel dest gr tree st f st' :
  round_effect self fuel dest gr tree st f st' -> positions_kept st st'.
Proof.
  intros (_ & a & near & s_new & _ & Hnear & _ & _ & [[_ Hh]|(_ & H)]).
  { intros b ob Hb. rewrite Hh. eauto. }
  simpl in H. destruct H as (_ & d & Hd & Hend).
  set (h1 := heap st ++ [s_new]) in *.
  set (h2 := <[a := add_child near (length (heap st))]> h1) in *.
  assert (H1 : forall b ob, heap st !! b = Some ob -> h1 !! b = Some ob).
  { intros b ob Hb. now apply lookup_app_l_Some. }
  assert (H2 : forall b ob, heap st !! b = Some ob ->
            exists ob', h2 !! b = Some ob' /\ x ob' = x ob /\ y ob' = y ob).
  { intros b ob Hb.
    apply (positions_kept_insert h1 a near); auto. }
  destruct Hend as [(dist & _ & Hh & _)|(path & dist & _ & Hh & _)];
    intros b ob Hb; rewrite Hh; [auto|].
  destruct (H2 b ob Hb) as (ob2 & Hob2 & Hx2 & Hy2).
  destruct (positions_kept_insert h2 dest d
              (set_parent d (length (heap st))) Hd eq_refl eq_refl b ob2 Hob2)
    as (ob3 & Hob3 & Hx3 & Hy3).
  exists ob3. repeat split; congruence.
Qed.

Lemma round_goal_outcome self fuel dest gr tree st f st' :
  round_effect self fuel dest gr tree st f st' ->
  (dest < length (heap st))%nat ->
  goal_outcome dest gr st f st'.
Proof.
  intros (_ & a & near & s_new & _ & Hnear & _ & _ & Hcase) Hdest.
  destruct (lookup_lt_is_Some_2 _ _ Hdest) as [d0 Hd0].
  pose proof (lookup_lt_Some _ _ _ Hnear) as Ha.
  destruct Hcase as [[-> Hh]|(_ & Hins)].
  { exists d0, d0. rewrite Hh. repeat (split; [auto|]). intros; lia. }
  simpl in Hins. destruct Hins as (_ & d & Hd & Hend).
  assert (Hdd0 : x d = x d0 /\ y d = y d0 /\ parent d = parent d0).
  { destruct (decide (a = dest)) as [->|Hne].
    - rewrite list_lookup_insert_eq in Hd by (rewrite length_app; simpl; lia).
      injection Hd as <-. assert (near = d0) as -> by congruence. auto.
    - rewrite list_lookup_insert_ne, lookup_app_l in Hd by auto.
      assert (d = d0) as -> by congruence. auto. }
  destruct Hdd0 as (Hx & Hy & Hp).
  assert (Hnew : <[a := add_child near (length (heap st))]>
                   (heap st ++ [s_new]) !! length (heap st) = Some s_new).
  { rewrite list_lookup_insert_ne by lia.
    rewrite lookup_app_r, Nat.sub_diag by lia. reflexivity. }
  destruct Hend as [(dist & Hf & Hh & Hdist & Hlt)
                   |(path & dist & Hf & Hh & _ & Hdist & Hlt)].
  - exists d0, d. rewrite Hh, Hf. repeat (split; [assumption|]).
    intros b ob Hb Hob. rewrite length_insert, length_app in Hb. simpl in Hb.
    assert (b = length (heap st)) as -> by lia.
    assert (ob = s_new) as -> by congruence. exists dist. auto.
  - exists d0, (set_parent d (length (heap st))). rewrite Hh, Hf.
    split; [assumption|]. split.
    { apply list_lookup_insert_eq.
      rewrite length_insert, length_app. simpl. lia. }
    split; [assumption|]. split; [assumption|]. split; [reflexivity|].
    split; [lia|].
    split; [rewrite !length_insert, length_app; simpl; lia|].
    split; [|intros; lia].
    exists s_new. split; [|exists dist; auto].
    rewrite list_lookup_insert_ne by lia. exact Hnew.
Qed.

Lemma goal_outcome_then dest gr st tree1 st1 f st' :
  goal_outcome dest gr st (Continue tree1) st1 ->
  (length (heap st) <= length (heap st1))%nat ->
  positions_kept st1 st' ->
  goal_outcome dest gr st1 f st' ->
  goal_outcome dest gr st f st'.
Proof.
  intros (d & d1 & Hd & Hd1 & Hx & Hy & Hp & Hout) Hlen Hkept
         (d1' & d' & Hd1' & Hd' & Hx' & Hy' & Hf).
  assert (d1' = d1) as -> by congruence.
  assert (Hold : forall b ob,
            (length (heap st) <= b < length (heap st1))%nat ->
            heap st' !! b = Some ob -> outside_radius gr ob d').
  { intros b ob Hb Hob.
    destruct (lookup_lt_is_Some_2 (heap st1) b) as [ob1 Hob1]; [lia|].
    destruct (Hkept b ob1 Hob1) as (ob' & Hob' & Hbx & Hby).
    assert (ob' = ob) as -> by congruence.
    apply (outside_radius_ext gr ob1 ob d1 d'); auto.
    apply (Hout b); auto; lia. }
  exists d, d'. repeat (split; [congruence|]).
  destruct f as [t|t s_new path].
  - destruct Hf as (Hpar & Hout'). split; [congruence|].
    intros b ob Hb Hob.
    destruct (decide (b < length (heap st1))%nat);
      [apply (Hold b)|apply (Hout' b)]; auto; lia.
  - destruct Hf as (Hpar & Hnew & Hlast & Hclose & Hout').
    repeat (split; [assumption || lia|]).
    intros b ob Hb Hob.
    destruct (decide (b < length (heap st1))%nat);
      [apply (Hold b)|apply (Hout' b)]; auto; lia.
Qed.

Section Loop.

Variable np : NumpyMath.
Variable rnd : nat -> Z.
Variable order : SetOrder.
Variable self : RRTPlanner.

Lemma plan_loop_goal_outcome fuel dest r gr steps : forall tree st f st',
  plan_loop np rnd order self fuel dest r gr steps tree st = Ok (f, st') ->
  (dest < length (heap st))%nat ->
  goal_outcome dest gr st f st' /\
  positions_kept st st' /\
  (length (heap st) <= length (heap st'))%nat /\
  (draws st + 2 * Nat.min steps 1 <= draws st')%nat /\
  (forall t, f = Continue t -> draws st' = (draws st + 2 * steps)%nat).
Proof.
  induction steps as [|steps IH]; intros tree st f st' H Hdest; simpl in H.
  - apply M_ret_Ok in H as [-> ->].
    destruct (lookup_lt_is_Some_2 _ _ Hdest) as [d Hd].
    split; [exists d, d; repeat (split; [auto|]); intros; lia|].
    split; [apply positions_kept_refl|]. repeat split; simpl; lia.
  - apply M_bind_Ok in H as (f1 & st1 & H1 & H).
    apply plan_iteration_Ok in H1.
    pose proof (round_goal_outcome _ _ _ _ _ _ _ _ H1 Hdest) as Hg1.
    pose proof (round_heap_length _ _ _ _ _ _ _ _ H1) as Hlen1.
    pose proof (round_positions_kept _ _ _ _ _ _ _ _ H1) as Hk1.
    destruct H1 as (Hdraws & _).
    destruct f1 as [tree1|tree1 s_new path].
    + apply IH in H as (Hg & Hk & Hlen & Hdr & Hall); [|lia].
      split; [eapply goal_outcome_then; eauto; lia|].
      split; [eapply positions_kept_trans; eauto|].
      repeat split; try lia. intros t Ht. rewrite (Hall t Ht). lia.
    + apply M_ret_Ok in H as [-> ->].
      split; [assumption|]. split; [assumption|].
      repeat split; try lia. discriminate.
Qed.

End Loop.

(** * [plan] *)

Lemma state_is_free_same_place (p : RRTPlanner) (s d : State) :
  State_eq s d = true -> state_is_free p d = state_is_free p s.
Proof.
  unfold State_eq, state_is_free.
  intros [Hx%Z.eqb_eq Hy%Z.eqb_eq]%andb_true_iff. now rewrite Hx, Hy.
Qed.

Section Plan.

Variable np : NumpyMath.
Variable rnd : nat -> Z.
Variable order : SetOrder.
Variable self : RRTPlanner.

(** With both preconditions met, [plan] runs its loop and returns
    [[start_state]]. *)
Lemma plan_eq fuel start dest max r gr st s d :
  heap st !! start = Some s -> state_is_free self s = true ->
  heap st !! dest = Some d -> state_is_free self d = true ->
  plan np rnd order self fuel start dest max r gr st =
  (f ← plan_loop np rnd order self fuel dest r gr (Z.to_nat max) [start];
   mret [start]) st.
Proof.
  intros Hs Hfs Hd Hfd. unfold plan.
  rewrite (M_bind_eq _ _ _ _ _ (get_obj_eq _ _ _ Hs)), Hfs.
  rewrite (M_bind_eq _ _ st tt st) by reflexivity.
  rewrite (M_bind_eq _ _ _ _ _ (get_obj_eq _ _ _ Hd)), Hfd.
  now rewrite (M_bind_eq _ _ st tt st) by reflexivity.
Qed.

(** A call that returns has passed both assertions, has run the loop to
    some end, and returns [[start_state]]. *)
Lemma plan_Ok fuel start dest max r gr st path st' :
  plan np rnd order self fuel start dest max r gr st = Ok (path, st') ->
  path = [start] /\
  exists s d f,
    heap st !! start = Some s /\ state_is_free self s = true /\
    heap st !! dest = Some d /\ state_is_free self d = true /\
    plan_loop np rnd order self fuel dest r gr (Z.to_nat max) [start] st
      = Ok (f, st').
Proof.
  unfold plan. intros H.
  inv_bind H as s Hs. inv_bind H as u Hfs. apply py_assert_Ok in Hfs.
  inv_bind H as d Hd. inv_bind H as u' Hfd. apply py_assert_Ok in Hfd.
  apply M_bind_Ok in H as (f & st1 & Hloop & H).
  apply M_ret_Ok in H as [-> ->]. split; [reflexivity|].
  exists s, d, f. auto.
Qed.

(** With no round allowed the call returns at once. *)
Lemma plan_no_round fuel start dest max r gr st s d :
  heap st !! start = Some s -> state_is_free self s = true ->
  heap st !! dest = Some d -> state_is_free self d = true ->
  max <= 0 ->
  plan np rnd order self fuel start dest max r gr st = Ok ([start], st).
Proof.
  intros Hs Hfs Hd Hfd Hmax.
  rewrite (plan_eq fuel start dest max r gr st s d) by assumption.
  now replace (Z.to_nat max) with 0%nat by lia.
Qed.

(** C6: called on a free start and a free destination, [plan] returns
    exactly [[start_state]] when the loop runs out of rounds without having
    broken on the destination radius; with [max_num_steps = 0] (or below)
    it does so at once, the store untouched. *)
Theorem plan_exhausted_returns_start fuel start dest max r gr st s d :
  heap st !! start = Some s -> state_is_free self s = true ->
  heap st !! dest = Some d -> state_is_free self d = true ->
  (forall tree st',
     plan_loop np rnd order self fuel dest r gr (Z.to_nat max) [start] st
       = Ok (Continue tree, st') ->
     plan np rnd order self fuel start dest max r gr st = Ok ([start], st')) /\
  (max <= 0 ->
     plan np rnd order self fuel start dest max r gr st = Ok ([start], st)).
Proof.
  intros Hs Hfs Hd Hfd. split.
  - intros tree st' Hloop.
    rewrite (plan_eq fuel start dest max r gr st s d) by assumption.
    now rewrite (M_bind_eq _ _ _ _ _ Hloop).
  - now apply (plan_no_round fuel start dest max r gr st s d).
Qed.

(** C10: when [plan] returns, the destination object has kept its
    coordinates; its parent is the inserted node that came within the
    radius when there was one (the loop was broken), and is what it was on
    entry in every other case. *)
Theorem plan_goal_frame fuel start dest max r gr st path st' :
  plan np rnd order self fuel start dest max r gr st = Ok (path, st') ->
  exists f,
    plan_loop np rnd order self fuel dest r gr (Z.to_nat max) [start] st
      = Ok (f, st') /\
    goal_outcome dest gr st f st'.
Proof.
  intros H. apply plan_Ok in H as (_ & s & d & f & _ & _ & Hd & _ & Hloop).
  exists f. split; [assumption|].
  eapply plan_loop_goal_outcome; [eassumption|].
  eapply lookup_lt_Some, Hd.
Qed.

(** C7, as the code has it: a call with the destination at the start's
    position is not answered before the loop.  With no round allowed it
    returns [[start_state]], nothing sampled; with one round or more it
    never returns without having drawn a sample (two calls to [randint]),
    the radius test being made on inserted nodes only. *)
Theorem plan_start_is_goal fuel start dest max r gr st s d :
  heap st !! start = Some s -> heap st !! dest = Some d ->
  State_eq s d = true -> state_is_free self s = true ->
  (0 <? gr)%float = true ->
  (max <= 0 ->
     plan np rnd order self fuel start dest max r gr st = Ok ([start], st)) /\
  (0 < max -> forall path st',
     plan np rnd order self fuel start dest max r gr st = Ok (path, st') ->
     (draws st + 2 <= draws st')%nat).
Proof.
  intros Hs Hd Heq Hfs _.
  assert (Hfd : state_is_free self d = true).
  { now rewrite (state_is_free_same_place self s d Heq). }
  split.
  - now apply (plan_no_round fuel start dest max r gr st s d).
  - intros Hmax path st' H.
    apply plan_Ok in H as (_ & _ & _ & f & _ & _ & _ & _ & Hloop).
    apply plan_loop_goal_outcome in Hloop as (_ & _ & _ & Hdraws & _);
      [|eapply lookup_lt_Some, Hd].
    replace (Nat.min (Z.to_nat max) 1) with 1%nat in Hdraws by lia. lia.
Qed.

End Plan.

(** * Worked runs *)

(** C1, where the code departs from it: start (10, 10), destination
    (10, 25), radius 8, one round.  The round inserts (10, 20), which is at
    distance 5 of the destination: the loop breaks, the destination is
    re-parented and the variable [plan] receives the extracted path
    [0; 2; 1; 1] (start, new node, destination, and the destination once
    more as [_follow_parent_pointers] leaves it).  [plan] then returns
    [[start_state]]. *)
Theorem plan_discards_extracted_path (np : NumpyMath) :
  exists f st',
    plan_loop np ten_then_twenty insertion_order open_field 10 1%nat 30 8
      1 [0%nat] (two_objects 10 25) = Ok (f, st') /\
    f = Break [0; 2]%nat 2%nat [0; 2; 1; 1]%nat /\
    plan_variable 0%nat f = [0; 2; 1; 1]%nat /\
    heap st' !! 1%nat = Some (mkState 10 25 (Some 2%nat) []) /\
    heap st' !! 2%nat = Some (mkState 10 20 (Some 0%nat) []) /\
    plan np ten_then_twenty insertion_order open_field 10 0%nat 1%nat 1 30 8
      (two_objects 10 25)
      = Ok ([0%nat], st').
Proof. eexists _, _. repeat split; vm_compute; reflexivity. Qed.

Lemma plan_exhausted_returns_start_witness :
  plan first_order_math always_ten insertion_order open_field 10 0%nat 1%nat
    1 30 8 (two_objects 10 25)
  = Ok ([0%nat],
        mkStore [mkState 10 10 None [2%nat]; State_init 10 25 None;
                 State_init 10 10 (Some 0%nat)] 2).
Proof.
  destruct (plan_exhausted_returns_start first_order_math always_ten
              insertion_order open_field 10 0%nat 1%nat 1 30 8
              (two_objects 10 25) (State_init 10 10 None)
              (State_init 10 25 None))
    as [Hexhausted _];
    [reflexivity|vm_compute; reflexivity|reflexivity|vm_compute; reflexivity|].
  apply (Hexhausted [0%nat]). vm_compute. reflexivity.
Defined.

Lemma plan_goal_frame_witness :
  exists f st',
    plan_loop first_order_math ten_then_twenty insertion_order open_field 10
      1%nat 30 8 (Z.to_nat 1) [0%nat] (two_objects 10 25) = Ok (f, st') /\
    goal_outcome 1%nat 8 (two_objects 10 25) f st'.
Proof.
  destruct (plan_goal_frame first_order_math ten_then_twenty insertion_order
              open_field 10 0%nat 1%nat 1 30 8 (two_objects 10 25) [0%nat]
              (mkStore [mkState 10 10 None [2%nat];
                        mkState 10 25 (Some 2%nat) [];
                        State_init 10 20 (Some 0%nat)] 2))
    as (f & Hloop & Hgoal); [vm_compute; reflexivity|].
  exists f. eexists. split; [exact Hloop|exact Hgoal].
Defined.

(** C7 as stated fails: start and destination both at (10, 10), radius 8.
    With no round allowed the call returns [[0]], not [[0; 1]]; with one
    round allowed it has made two draws before it returns. *)
Lemma plan_start_is_goal_not_short_circuited :
  plan first_order_math always_ten insertion_order open_field 10 0%nat 1%nat
    0 30 8 (two_objects 10 10)
  = Ok ([0%nat], two_objects 10 10) /\
  exists st',
    plan first_order_math always_ten insertion_order open_field 10 0%nat
      1%nat 1 30 8 (two_objects 10 10)
    = Ok ([0%nat], st') /\ draws st' = 2%nat.
Proof. split; [|eexists; split]; vm_compute; reflexivity. Qed.

Lemma plan_start_is_goal_witness :
  plan first_order_math always_ten insertion_order open_field 10 0%nat 1%nat
    0 30 8 (two_objects 10 10)
  = Ok ([0%nat], two_objects 10 10).
Proof.
  destruct (plan_start_is_goal first_order_math always_ten insertion_order
              open_field 10 0%nat 1%nat 0 30 8 (two_objects 10 10)
              (State_init 10 10 None) (State_init 10 10 None))
    as [Hnone _];
    [reflexivity|reflexivity|reflexivity|vm_compute; reflexivity|reflexivity|].
  apply Hnone. lia.
Defined.

(** * The tree of nodes *)

Lemma follow_loop_Ok_chain fuel : forall a path st r st',
  follow_loop fuel (Some a) path st = Ok (r, st') ->
  exists l, parent_chain (heap st) a l /\ r = path ++ l.
Proof.
  induction fuel as [|fuel IH]; intros a path st r st' H; simpl in H;
    [discriminate|].
  inv_bind H as o Ho. destruct (parent o) as [p|] eqn:Hp.
  - apply IH in H as (l & Hl & ->). exists (a :: l).
    split; [eapply chain_step; eauto|]. now rewrite <- app_assoc.
  - rewrite follow_loop_None in H. injection H as <- <-.
    exists [a]. split; [eapply chain_root; eauto|reflexivity].
Qed.

Lemma follow_parent_pointers_Ok_chain fuel a st r st' :
  _follow_parent_pointers fuel a st = Ok (r, st') ->
  exists l, parent_chain (heap st) a l.
Proof.
  unfold _follow_parent_pointers. intros H.
  apply M_bind_Ok in H as (path & st1 & H1 & _).
  apply follow_loop_Ok_chain in H1 as (l & Hl & _). eauto.
Qed.

(** Where every node of a family has a parent in the family, no parent
    chain that starts in the family comes to an end. *)
Lemma parent_chain_leaves (h : list State) (P : addr -> Prop) :
  (forall b, P b -> exists o p, h !! b = Some o /\ parent o = Some p /\ P p) ->
  forall a l, parent_chain h a l -> P a -> False.
Proof.
  intros Hclosed a l Hchain.
  induction Hchain as [a o Ha Hp | a o p l Ha Hp _ IH]; intros HP;
    destruct (Hclosed a HP) as (o' & p' & Ho' & Hp' & HP').
  - congruence.
  - apply IH. congruence.
Qed.

Lemma tree_inv_rooted n0 start h tree :
  tree_inv n0 start h tree -> rooted_tree start h tree.
Proof.
  intros (Hstart & Hn0 & Hmem).
  split; [assumption|]. split.
  - intros a Ha Hne. destruct (Hmem a Ha Hne) as (_ & o & p & ? & ? & ? & _).
    eauto.
  - assert (Hall : forall n a, (a < n)%nat -> a ∈ tree ->
              exists l, tree_path h start a l /\ forall b, b ∈ l -> b ∈ tree).
    { induction n as [|n IH]; intros a Han Ha; [lia|].
      destruct (decide (a = start)) as [->|Hne].
      - exists [start]. split; [constructor|].
        now intros b ->%list_elem_of_singleton.
      - destruct (Hmem a Ha Hne) as (_ & o & p & Ho & Hp & Hpt & Hlt).
        destruct (IH p) as (l & Hl & Hin); [lia|assumption|].
        exists (a :: l). split; [eapply path_step; eauto|].
        intros b [->|Hb]%elem_of_cons; auto. }
    intros a Ha. apply (Hall (S a)); [lia|assumption].
Qed.

(** From a root, a path to the start is a whole parent chain. *)
Lemma tree_path_parent_chain h start a l :
  root_inv start h -> tree_path h start a l ->
  parent_chain h a l /\ last l = Some start.
Proof.
  intros (o0 & Ho0 & Hp0).
  induction 1 as [|a o p l Hne Ho Hp _ [IHc IHl]].
  - split; [eapply chain_root; eauto|reflexivity].
  - split; [eapply chain_step; eauto|].
    rewrite last_cons, IHl. reflexivity.
Qed.

(** A round keeps the invariant; it keeps the start a root as well, for a
    round that re-parents the start (the destination being the start
    itself) has no end: every node of the tree then has a parent in the
    tree, and [_follow_parent_pointers] cannot have returned. *)
Lemma round_invariants self fuel dest gr n0 start tree st f st' :
  tree_inv n0 start (heap st) tree -> (dest < n0)%nat ->
  round_effect self fuel dest gr tree st f st' ->
  tree_inv n0 start (heap st') (tree_of f) /\
  (root_inv start (heap st) -> root_inv start (heap st')).
Proof.
  intros (Hstart & Hn0 & Hmem) Hdest Hround.
  pose proof (round_heap_length _ _ _ _ _ _ _ _ Hround) as Hlen.
  destruct Hround as (_ & a & near & s_new & Ha & Hnear & Hpar & Hch & Hcase).
  destruct Hcase as [[-> Hh]|(_ & Hins)].
  { simpl. rewrite Hh. split; [|auto].
    split; [assumption|]. split; assumption. }
  simpl in Hins. destruct Hins as (Htree & d & Hd & Hend).
  pose proof (lookup_lt_Some _ _ _ Hnear) as Han.
  set (an := length (heap st)) in *.
  set (h2 := <[a := add_child near an]> (heap st ++ [s_new])) in *.
  assert (H2 : forall b ob, heap st !! b = Some ob ->
            exists ob', h2 !! b = Some ob' /\ parent ob' = parent ob).
  { intros b ob Hb. unfold h2. destruct (decide (a = b)) as [->|Hne].
    - exists (add_child near an).
      rewrite list_lookup_insert_eq by (rewrite length_app; simpl; lia).
      assert (ob = near) as -> by congruence. auto.
    - exists ob. rewrite list_lookup_insert_ne by assumption.
      split; [now apply lookup_app_l_Some|reflexivity]. }
  assert (H2new : h2 !! an = Some s_new).
  { unfold h2. rewrite list_lookup_insert_ne by lia.
    rewrite lookup_app_r by (unfold an; lia).
    unfold an. now rewrite Nat.sub_diag. }
  assert (Hsub : forall b, b ∈ tree -> b ∈ tree_of f).
  { intros b Hb. destruct Htree as [[_ ->]|[_ ->]]; [assumption|].
    apply elem_of_app. auto. }
  assert (Hsup : forall b, b ∈ tree_of f -> b ∈ tree \/ b = an).
  { intros b Hb. destruct Htree as [[_ Ht]|[_ Ht]]; rewrite Ht in Hb; auto.
    apply elem_of_app in Hb as [Hb|Hb%list_elem_of_singleton]; auto. }
  assert (Hsame : forall b, b <> dest -> heap st' !! b = h2 !! b).
  { destruct Hend as [(dist & _ & Hh & _)|(path & dist & _ & Hh & _)];
      rewrite Hh; [reflexivity|].
    intros b Hb. now apply list_lookup_insert_ne. }
  assert (Hinv' : forall b, b ∈ tree_of f -> b <> start ->
            (n0 <= b)%nat /\
            exists o p, heap st' !! b = Some o /\ parent o = Some p /\
                        p ∈ tree_of f /\ (p < b)%nat).
  { intros b Hb Hne. destruct (Hsup b Hb) as [Hold| ->].
    - destruct (Hmem b Hold Hne) as (Hlow & o & p & Ho & Hp & Hpt & Hlt).
      split; [assumption|]. rewrite Hsame by lia.
      destruct (H2 b o Ho) as (ob' & Hob' & Hpar').
      exists ob', p. repeat split; auto. congruence.
    - split; [lia|]. rewrite Hsame by lia.
      exists s_new, a. repeat split; auto. }
  split; [split; [auto|split; [lia|assumption]]|].
  intros (o0 & Ho0 & Hp0).
  destruct (H2 start o0 Ho0) as (o0' & Ho0' & Hp0').
  destruct (decide (start = dest)) as [<-|Hne];
    [|exists o0'; rewrite Hsame by assumption; split; congruence].
  destruct Hend as [(dist & _ & Hh & _)|(path & dist & _ & Hh & Hfollow & _)].
  { exists o0'. rewrite Hh. split; congruence. }
  exfalso.
  apply follow_parent_pointers_Ok_chain in Hfollow as [l Hl].
  eapply (parent_chain_leaves _ (fun b => b ∈ tree \/ b = an));
    [|exact Hl|left; assumption].
  intros b [Hb| ->].
  - destruct (decide (b = start)) as [->|Hneb].
    + exists (set_parent d an), an. rewrite Hh.
      rewrite list_lookup_insert_eq by (eapply lookup_lt_Some, Hd). auto.
    + destruct (Hmem b Hb Hneb) as (_ & o & p & Ho & Hp & Hpt & _).
      destruct (H2 b o Ho) as (ob' & Hob' & Hpar').
      exists ob', p. rewrite Hsame by assumption.
      split; [assumption|]. split; [congruence|auto].
  - exists s_new, a. rewrite Hsame by lia. auto.
Qed.

Lemma same_place_app (h : list State) (extra : list State) (tree : list addr)
    (s : State) :
  (forall a, a ∈ tree -> (a < length h)%nat) ->
  same_place (h ++ extra) tree s <-> same_place h tree s.
Proof.
  intros Hvalid. split; intros (a & o & Ha & Ho & Hs); exists a, o;
    (split; [assumption|]); (split; [|assumption]).
  - now rewrite lookup_app_l in Ho by auto.
  - now apply lookup_app_l_Some.
Qed.

Lemma tree_inv_valid n0 start h tree :
  tree_inv n0 start h tree -> forall a, a ∈ tree -> (a < length h)%nat.
Proof.
  intros (_ & Hn0 & Hmem) a Ha.
  destruct (decide (a = start)) as [->|Hne]; [lia|].
  destruct (Hmem a Ha Hne) as (_ & o & _ & Ho & _).
  eapply lookup_lt_Some, Ho.
Qed.

Lemma round_round_growth self fuel dest gr n0 start tree st f st' :
  tree_inv n0 start (heap st) tree -> (dest < n0)%nat ->
  round_effect self fuel dest gr tree st f st' ->
  round_growth (heap st) tree (heap st') (tree_of f).
Proof.
  intros Hinv Hdest Hround.
  pose proof (tree_inv_valid _ _ _ _ Hinv) as Hvalid.
  destruct Hinv as (_ & Hn0 & _).
  destruct Hround as (_ & a & near & s_new & Ha & Hnear & Hpar & Hch & Hcase).
  destruct Hcase as [[-> Hh]|(_ & Hins)].
  { simpl. rewrite Hh. split; [reflexivity|]. split; [lia|].
    split; [auto|]. split; [reflexivity|]. lia. }
  simpl in Hins. destruct Hins as (Htree & d & Hd & Hend).
  pose proof (lookup_lt_Some _ _ _ Hnear) as Han.
  rewrite same_place_app in Htree by assumption.
  assert (Hlen : length (heap st') = S (length (heap st))).
  { destruct Hend as [(? & _ & -> & _)|(? & ? & _ & -> & _)];
      rewrite ?length_insert, length_app; simpl; lia. }
  assert (Hnew : heap st' !! length (heap st) = Some s_new).
  { destruct Hend as [(? & _ & -> & _)|(? & ? & _ & -> & _)];
      rewrite ?list_lookup_insert_ne by lia;
      rewrite lookup_app_r, Nat.sub_diag by lia; reflexivity. }
  split; [|split; [|split; [auto|split; [lia|]]]].
  - destruct Htree as [[_ ->]|[_ ->]]; [reflexivity|].
    now apply prefix_app_r.
  - destruct Htree as [[_ ->]|[_ ->]]; rewrite ?length_app; simpl; lia.
  - intros _. exists s_new. split; [assumption|].
    destruct Htree as [[Hsame ->]|[Hfresh ->]]; split; auto; contradiction.
Qed.

Section Tree.

Variable np : NumpyMath.
Variable rnd : nat -> Z.
Variable order : SetOrder.
Variable self : RRTPlanner.

Lemma plan_loop_invariants fuel dest r gr n0 start steps :
  forall tree st f st',
  plan_loop np rnd order self fuel dest r gr steps tree st = Ok (f, st') ->
  tree_inv n0 start (heap st) tree -> (dest < n0)%nat ->
  tree_inv n0 start (heap st') (tree_of f) /\
  (root_inv start (heap st) -> root_inv start (heap st')) /\
  tree `prefix_of` tree_of f.
Proof.
  induction steps as [|steps IH]; intros tree st f st' H Hinv Hdest;
    simpl in H.
  - apply M_ret_Ok in H as [-> ->]. auto.
  - apply M_bind_Ok in H as (f1 & st1 & H1 & H).
    apply plan_iteration_Ok in H1.
    destruct (round_invariants _ _ _ _ _ _ _ _ _ _ Hinv Hdest H1)
      as (Hinv1 & Hroot1).
    pose proof (round_round_growth _ _ _ _ _ _ _ _ _ _ Hinv Hdest H1)
      as (Hpre1 & _).
    destruct f1 as [tree1|tree1 s_new path].
    + apply IH in H as (Hinv' & Hroot' & Hpre'); [|assumption..].
      split; [assumption|]. split; [auto|]. etrans; eassumption.
    + apply M_ret_Ok in H as [-> ->]. auto.
Qed.

(** C8, as the code has it.  [plan] starts its loop on the set that holds
    the start alone.  After any number of rounds the set is a tree rooted
    at the start: every other member has its parent in the set, and the
    parent pointers lead from every member to the start, without cycle;
    when the start had no parent on entry they end there.  The set still
    begins with the members it had.  The round that follows removes nothing
    and inserts at most one node; the node it inserts enlarges the set by
    exactly one member unless a member already has its coordinates, in
    which case the set stays as it is. *)
Theorem plan_tree_invariant fuel start dest r gr st :
  (start < length (heap st))%nat -> (dest < length (heap st))%nat ->
  forall steps f st',
    plan_loop np rnd order self fuel dest r gr steps [start] st
      = Ok (f, st') ->
    rooted_tree start (heap st') (tree_of f) /\
    (root_inv start (heap st) ->
     forall a, a ∈ tree_of f ->
       exists l, parent_chain (heap st') a l /\ last l = Some start) /\
    [start] `prefix_of` tree_of f /\
    forall f2 st2,
      plan_iteration np rnd order self fuel dest r gr (tree_of f) st'
        = Ok (f2, st2) ->
      round_growth (heap st') (tree_of f) (heap st2) (tree_of f2).
Proof.
  intros Hstart Hdest steps f st' Hloop.
  assert (Hinv0 : tree_inv (length (heap st)) start (heap st) [start]).
  { split; [apply list_elem_of_singleton; reflexivity|].
    split; [lia|].
    intros a ->%list_elem_of_singleton Hne. contradiction. }
  destruct (plan_loop_invariants _ _ _ _ _ _ _ _ _ _ _ Hloop Hinv0 Hdest)
    as (Hinv & Hroot & Hpre).
  pose proof (tree_inv_rooted _ _ _ _ Hinv) as Hrooted.
  split; [assumption|]. split; [|split; [assumption|]].
  - intros Hroot0 a Ha.
    destruct Hrooted as (_ & _ & Hpaths).
    destruct (Hpaths a Ha) as (l & Hl & _). exists l.
    apply tree_path_parent_chain; auto.
  - intros f2 st2 Hround. apply plan_iteration_Ok in Hround.
    eapply round_round_growth; eauto.
Qed.

End Tree.

(** C8 as stated fails: with start (10, 10) and the generator that always
    yields 10, the first round samples the start's own position; the edge
    is free, so a node is made, given the start as parent and appended to
    the start's children, but [tree_nodes.add] finds the start equal to it
    and the set keeps its single member. *)
Lemma insertion_at_a_taken_place_does_not_grow_the_set :
  exists st',
    plan_iteration first_order_math always_ten insertion_order open_field
      10 1%nat 30 8 [0%nat] (two_objects 10 25)
    = Ok (Continue [0%nat], st') /\
    heap st' !! 0%nat = Some (mkState 10 10 None [2%nat]) /\
    heap st' !! 2%nat = Some (mkState 10 10 (Some 0%nat) []) /\
    length (heap st') = S (length (heap (two_objects 10 25))).
Proof. eexists. repeat split; vm_compute; reflexivity. Qed.

Lemma plan_tree_invariant_witness :
  rooted_tree 0%nat
    [mkState 10 10 None [2%nat]; mkState 10 25 (Some 2%nat) [];
     mkState 10 20 (Some 0%nat) []]
    [0; 2]%nat.
Proof.
  destruct (plan_tree_invariant first_order_math ten_then_twenty
              insertion_order open_field 10 0%nat 1%nat 30 8
              (two_objects 10 25)
              ltac:(simpl; lia) ltac:(simpl; lia) 1%nat
              (Break [0; 2]%nat 2%nat [0; 2; 1; 1]%nat)
              (mkStore [mkState 10 10 None [2%nat];
                        mkState 10 25 (Some 2%nat) [];
                        mkState 10 20 (Some 0%nat) []] 2))
    as (Hrooted & _); [vm_compute; reflexivity|].
  exact Hrooted.
Defined.

(** * Further properties *)

(** ** Collision detection beyond the map *)

(** X3: a state five cells or more below the last row, or five cells or
    more right of the last column, is reported free whatever the map: the
    slice starts past the end and the window is empty. *)
Theorem state_is_free_beyond_map (p : RRTPlanner) (s : State) :
  rows p + 5 <= y s \/ cols p + 5 <= x s ->
  state_is_free p s = true.
Proof.
  pose proof (rows_nonneg p) as Hrn. pose proof (cols_nonneg p) as Hcn.
  intros [Hy|Hx]; unfold state_is_free, slice2d.
  - rewrite (py_slice_inside (rows p) (y s)) by lia.
    replace (Z.to_nat (Z.min (y s + 5) (rows p) - Z.min (y s - 5) (rows p)))
      with 0%nat by lia.
    reflexivity.
  - apply forallb_all_nil, Forall_forall. intros l Hl.
    apply list_elem_of_In, in_map_iff in Hl as (row & <- & _).
    rewrite py_slice_inside by lia.
    replace (Z.to_nat (Z.min (x s + 5) (cols p) - Z.min (x s - 5) (cols p)))
      with 0%nat by lia.
    reflexivity.
Qed.

Lemma state_is_free_beyond_map_witness :
  state_is_free (uniform_world black 20 20) (State_init 10 25 None) = true.
Proof.
  apply (state_is_free_beyond_map (uniform_world black 20 20)
           (State_init 10 25 None)).
  left. vm_compute. discriminate.
Defined.

Lemma state_is_free_interior_witness :
  state_is_free (uniform_world white 20 20) (State_init 10 10 None) = true.
Proof.
  apply (state_is_free_interior (uniform_world white 20 20)
           (State_init 10 10 None));
    [vm_compute; discriminate..|].
  intros r c v _ _ _. unfold cell.
  destruct ((r <? 0) || (c <? 0)); [discriminate|].
  destruct (occ_grid (uniform_world white 20 20) !! Z.to_nat r)
    as [row|] eqn:Hrow; [|discriminate].
  apply list_elem_of_lookup_2 in Hrow.
  simpl. intros Hv%list_elem_of_lookup_2.
  vm_compute in Hrow.
  repeat (apply elem_of_cons in Hrow as [->|Hrow];
          [repeat (apply elem_of_cons in Hv as [->|Hv]; [reflexivity|]);
           now apply elem_of_nil in Hv|]).
  now apply elem_of_nil in Hrow.
Defined.

(** ** Sampling *)

(** X4: on a map with at least one row and one column, [sample_state]
    returns a state inside the map, [0 <= x < width] and [0 <= y < height],
    without parent or children; it draws exactly two random numbers and
    leaves the objects as they are. *)
Theorem sample_state_in_map rnd self st :
  0 < cols self -> 0 < rows self ->
  exists s,
    sample_state rnd self st = Ok (s, mkStore (heap st) (S (S (draws st)))) /\
    0 <= x s < cols self /\ 0 <= y s < rows self /\
    parent s = None /\ children s = [].
Proof.
  intros Hc Hr. unfold sample_state, np_random_randint, mbind, M_bind.
  destruct (Z.leb_spec (cols self) 0) as [|_]; [lia|]. simpl.
  destruct (Z.leb_spec (rows self) 0) as [|_]; [lia|]. simpl.
  eexists. split; [reflexivity|]. simpl. rewrite !Z.sub_0_r.
  pose proof (Z.mod_pos_bound (rnd (draws st)) (cols self) Hc).
  pose proof (Z.mod_pos_bound (rnd (S (draws st))) (rows self) Hr).
  repeat split; lia.
Qed.

Lemma sample_state_in_map_witness :
  exists s,
    sample_state ten_then_twenty open_field (two_objects 10 25)
      = Ok (s, mkStore (heap (two_objects 10 25))
                 (S (S (draws (two_objects 10 25))))) /\
    0 <= x s < cols open_field /\ 0 <= y s < rows open_field /\
    parent s = None /\ children s = [].
Proof.
  apply (sample_state_in_map ten_then_twenty open_field (two_objects 10 25));
    vm_compute; reflexivity.
Defined.

(** X5: on a map without rows or without columns [sample_state] raises
    [ValueError], whatever the generator yields. *)
Theorem sample_state_empty_map rnd self st :
  cols self = 0 \/ rows self = 0 ->
  sample_state rnd self st = Raise ValueError.
Proof.
  intros H. unfold sample_state, np_random_randint, mbind, M_bind.
  destruct (Z.leb_spec (cols self) 0) as [|Hc]; [reflexivity|]. simpl.
  destruct (Z.leb_spec (rows self) 0) as [|Hr]; [reflexivity|]. lia.
Qed.

Lemma sample_state_empty_map_witness :
  sample_state always_ten (uniform_world white 3 0) (two_objects 10 25)
    = Raise ValueError.
Proof.
  apply (sample_state_empty_map always_ten (uniform_world white 3 0)
           (two_objects 10 25)).
  left. reflexivity.
Defined.

(** ** Distances *)

(** X6: the distance does not depend on which of the two states is asked,
    and two states that [__eq__] holds equal are at distance 0. *)
Theorem euclidean_distance_symmetric (a b : State) :
  euclidean_distance a b = euclidean_distance b a /\
  (State_eq a b = true -> euclidean_distance a b = Ok 0%float).
Proof.
  unfold euclidean_distance. split.
  - replace ((x b - x a) ^ 2 + (y b - y a) ^ 2)
      with ((x a - x b) ^ 2 + (y a - y b) ^ 2) by ring.
    reflexivity.
  - unfold State_eq. intros [Hx%Z.eqb_eq Hy%Z.eqb_eq]%andb_true_iff.
    rewrite Hx, Hy, !Z.sub_diag. reflexivity.
Qed.

(** ** Equality of states *)

Lemma State_eq_sym (s t : State) : State_eq s t = State_eq t s.
Proof. unfold State_eq. now rewrite (Z.eqb_sym (x s)), (Z.eqb_sym (y s)). Qed.

Lemma State_eq_coords (s s' t t' : State) :
  x s' = x s -> y s' = y s -> x t' = x t -> y t' = y t ->
  State_eq s' t' = State_eq s t.
Proof. unfold State_eq. now intros -> -> -> ->. Qed.

(** ** Path extraction, in general *)

Lemma follow_loop_Ok_chain_fuel fuel : forall a path st r st',
  follow_loop fuel (Some a) path st = Ok (r, st') ->
  exists l, parent_chain (heap st) a l /\ r = path ++ l /\
            (length l <= fuel)%nat.
Proof.
  induction fuel as [|fuel IH]; intros a path st r st' H; simpl in H;
    [discriminate|].
  inv_bind H as o Ho. destruct (parent o) as [p|] eqn:Hp.
  - apply IH in H as (l & Hl & -> & Hlen). exists (a :: l).
    split; [eapply chain_step; eauto|].
    split; [now rewrite <- app_assoc|simpl; lia].
  - rewrite follow_loop_None in H. injection H as <- <-.
    exists [a]. split; [eapply chain_root; eauto|].
    split; [reflexivity|simpl; lia].
Qed.

(** X8: [_follow_parent_pointers] returns exactly when the parent pointers
    from the state come to a node without parent (in at most as many steps
    as the loop is given); it then returns the nodes met, root first, with
    the state it was called on twice at the end, and changes nothing. *)
Theorem follow_parent_pointers_returns fuel a st r st' :
  _follow_parent_pointers fuel a st = Ok (r, st') <->
  st' = st /\
  exists l, parent_chain (heap st) a l /\ (length l <= fuel)%nat /\
            r = rev l ++ [a].
Proof.
  split.
  - intros H. pose proof (follow_parent_pointers_Ok _ _ _ _ _ H) as ->.
    split; [reflexivity|]. unfold _follow_parent_pointers in H.
    apply M_bind_Ok in H as (path & st1 & H1 & H).
    apply M_ret_Ok in H as [-> _].
    apply follow_loop_Ok_chain_fuel in H1 as (l & Hl & -> & Hlen).
    exists l. repeat split; auto.
  - intros (-> & l & Hl & Hlen & ->).
    unfold _follow_parent_pointers.
    rewrite (M_bind_eq _ _ _ _ _ (follow_loop_chain st a l Hl fuel [a] Hlen)).
    reflexivity.
Qed.

Lemma follow_loop_closed st (P : addr -> Prop) :
  closed_under_parent (heap st) P ->
  forall fuel a path, P a -> follow_loop fuel (Some a) path st = OutOfFuel.
Proof.
  intros Hclosed. induction fuel as [|fuel IH]; intros a path HP;
    [reflexivity|].
  destruct (Hclosed a HP) as (o & p & Ho & Hp & HP'). simpl.
  rewrite (M_bind_eq _ _ _ _ _ (get_obj_eq _ _ _ Ho)), Hp. now apply IH.
Qed.

(** X9: where the parent pointers from the state never come to a node
    without parent (they run into a cycle), the loop of
    [_follow_parent_pointers] has no end: however many steps it is given,
    it has not returned. *)
Theorem follow_parent_pointers_cycle st (P : addr -> Prop) a :
  closed_under_parent (heap st) P -> P a ->
  forall fuel, _follow_parent_pointers fuel a st = OutOfFuel.
Proof.
  intros Hclosed HP fuel. unfold _follow_parent_pointers, mbind, M_bind.
  now rewrite (follow_loop_closed st P Hclosed fuel a [a] HP).
Qed.

Lemma follow_parent_pointers_cycle_witness :
  _follow_parent_pointers 7 0%nat two_cycle = OutOfFuel.
Proof.
  apply (follow_parent_pointers_cycle two_cycle (fun b => (b < 2)%nat) 0%nat);
    [|simpl; lia].
  intros [|[|b]] Hb; [| |lia].
  - exists (State_init 10 10 (Some 1%nat)), 1%nat. repeat split. lia.
  - exists (State_init 10 20 (Some 0%nat)), 0%nat. repeat split. lia.
Defined.

(** ** What a round of [plan] does to each object *)

Lemma state_is_free_coords (p : RRTPlanner) (s s' : State) :
  x s' = x s -> y s' = y s -> state_is_free p s' = state_is_free p s.
Proof. unfold state_is_free. now intros -> ->. Qed.

(** A round that inserts a node [s_new] at the first unused address gives
    the nearest node one more child, re-parents the destination at most,
    and leaves every other field of every object as it was. *)
Lemma round_objects self fuel dest gr tree st f st' :
  round_effect self fuel dest gr tree st f st' ->
  (dest < length (heap st))%nat ->
  (f = Continue tree /\ heap st' = heap st) \/
  exists s_nearest near s_new,
    let a_new := length (heap st) in
    s_nearest ∈ tree /\ heap st !! s_nearest = Some near /\
    parent s_new = Some s_nearest /\ children s_new = [] /\
    state_is_free self s_new = true /\
    length (heap st') = S a_new /\
    heap st' !! a_new = Some s_new /\
    ((same_place (heap st ++ [s_new]) tree s_new /\ tree_of f = tree) \/
     (~ same_place (heap st ++ [s_new]) tree s_new /\
      tree_of f = tree ++ [a_new])) /\
    forall b ob, heap st !! b = Some ob ->
      exists ob', heap st' !! b = Some ob' /\
        x ob' = x ob /\ y ob' = y ob /\
        (b <> dest -> parent ob' = parent ob) /\
        children ob' = if decide (b = s_nearest)
                       then children ob ++ [a_new] else children ob.
Proof.
  intros (_ & a & near & s_new & Ha & Hnear & Hpar & Hch & Hcase) Hdest.
  destruct Hcase as [H|(Hfree & Hins)]; [left; exact H|right].
  simpl in Hins. destruct Hins as (Htree & d & Hd & Hend).
  pose proof (lookup_lt_Some _ _ _ Hnear) as Han.
  exists a, near, s_new. cbv zeta. repeat (split; [assumption|]).
  set (an := length (heap st)) in *.
  set (h2 := <[a := add_child near an]> (heap st ++ [s_new])) in *.
  assert (H2 : forall b ob, heap st !! b = Some ob ->
            exists ob2, h2 !! b = Some ob2 /\
              x ob2 = x ob /\ y ob2 = y ob /\ parent ob2 = parent ob /\
              children ob2 = if decide (b = a)
                             then children ob ++ [an] else children ob).
  { intros b ob Hb. unfold h2. destruct (decide (b = a)) as [->|Hne].
    - exists (add_child near an).
      rewrite list_lookup_insert_eq by (rewrite length_app; simpl; lia).
      assert (ob = near) as -> by congruence. auto.
    - exists ob. rewrite list_lookup_insert_ne by congruence.
      split; [now apply lookup_app_l_Some|auto]. }
  assert (H2new : h2 !! an = Some s_new).
  { unfold h2. rewrite list_lookup_insert_ne by lia.
    rewrite lookup_app_r by (unfold an; lia).
    unfold an. now rewrite Nat.sub_diag. }
  assert (Hlen2 : length h2 = S an).
  { unfold h2. rewrite length_insert, length_app. simpl. lia. }
  destruct Hend as [(dist & _ & Hh & _)|(path & dist & _ & Hh & _)];
    rewrite Hh.
  - repeat (split; [assumption|]). intros b ob Hb.
    destruct (H2 b ob Hb) as (ob2 & ? & ? & ? & ? & ?). exists ob2. auto.
  - rewrite length_insert. split; [assumption|].
    split; [now rewrite list_lookup_insert_ne by lia|].
    split; [assumption|]. intros b ob Hb.
    destruct (H2 b ob Hb) as (ob2 & Hob2 & ? & ? & ? & ?).
    destruct (decide (b = dest)) as [->|Hne].
    + exists (set_parent d an).
      rewrite list_lookup_insert_eq by (rewrite Hlen2; lia).
      assert (ob2 = d) as -> by congruence. simpl.
      repeat (split; [auto|]); [intros Hc; contradiction|assumption].
    + exists ob2. rewrite list_lookup_insert_ne by congruence. auto.
Qed.

Lemma objects_grow_refl dest st : objects_grow dest st st.
Proof. split; [lia|]. intros b ob Hb. exists ob. auto. Qed.

Lemma objects_grow_trans dest st1 st2 st3 :
  objects_grow dest st1 st2 -> objects_grow dest st2 st3 ->
  objects_grow dest st1 st3.
Proof.
  intros [Hl1 H1] [Hl2 H2]. split; [lia|]. intros b ob Hb.
  destruct (H1 b ob Hb) as (ob2 & Hb2 & Hx2 & Hy2 & Hp2 & Hc2).
  destruct (H2 b ob2 Hb2) as (ob3 & Hb3 & Hx3 & Hy3 & Hp3 & Hc3).
  exists ob3. split; [assumption|].
  split; [congruence|]. split; [congruence|].
  split; [intros Hne; rewrite Hp3, Hp2; auto|etrans; eassumption].
Qed.

Lemma round_objects_grow self fuel dest gr tree st f st' :
  round_effect self fuel dest gr tree st f st' ->
  (dest < length (heap st))%nat -> objects_grow dest st st'.
Proof.
  intros Hround Hdest.
  destruct (round_objects _ _ _ _ _ _ _ _ Hround Hdest)
    as [[_ Hh]|(a & near & s_new & H)].
  { split; rewrite Hh; [lia|]. intros b ob Hb. exists ob. auto. }
  cbv zeta in H. destruct H as (_ & _ & _ & _ & _ & Hlen & _ & _ & Hobj).
  split; [lia|]. intros b ob Hb.
  destruct (Hobj b ob Hb) as (ob' & ? & ? & ? & ? & Hc). exists ob'.
  repeat (split; [assumption|]). rewrite Hc.
  destruct (decide (b = a)); [now apply prefix_app_r|reflexivity].
Qed.

(** The objects older than the call, the start and the destination apart,
    are out of a round's reach. *)
Lemma round_frame self fuel dest gr n0 start tree st f st' :
  tree_inv n0 start (heap st) tree -> (dest < n0)%nat ->
  round_effect self fuel dest gr tree st f st' ->
  forall b, (b < n0)%nat -> b <> start -> b <> dest ->
    heap st' !! b = heap st !! b.
Proof.
  intros (_ & Hn0 & Hmem) Hdest Hround b Hb Hbs Hbd.
  destruct (round_objects _ _ _ _ _ _ _ _ Hround ltac:(lia))
    as [[_ Hh]|(a & near & s_new & H)]; [now rewrite Hh|].
  cbv zeta in H. destruct H as (Ha & _ & _ & _ & _ & _ & _ & _ & Hobj).
  destruct (lookup_lt_is_Some_2 (heap st) b ltac:(lia)) as [ob Hob].
  destruct (Hobj b ob Hob) as (ob' & Hob' & Hx & Hy & Hp & Hc).
  assert (Hba : b <> a).
  { intros ->. destruct (Hmem a Ha Hbs) as [Hlow _]. lia. }
  destruct (decide (b = a)); [contradiction|].
  rewrite Hob, Hob'. f_equal.
  destruct ob, ob'; simpl in *. rewrite Hx, Hy, Hc, (Hp Hbd). reflexivity.
Qed.

(** ** Invariants of the set of nodes *)

Lemma round_all_free self fuel dest gr tree st f st' :
  all_free self (heap st) tree -> (dest < length (heap st))%nat ->
  round_effect self fuel dest gr tree st f st' ->
  all_free self (heap st') (tree_of f).
Proof.
  intros Hfree Hdest Hround.
  destruct (round_objects _ _ _ _ _ _ _ _ Hround Hdest)
    as [[-> Hh]|(a & near & s_new & H)]; [simpl; now rewrite Hh|].
  cbv zeta in H.
  destruct H as (_ & _ & _ & _ & Hnew & _ & Hat & Htree & Hobj).
  assert (Hold : forall b, b ∈ tree ->
            exists o, heap st' !! b = Some o /\ state_is_free self o = true).
  { intros b Hb. destruct (Hfree b Hb) as (o & Ho & Hfo).
    destruct (Hobj b o Ho) as (o' & Ho' & Hx & Hy & _). exists o'.
    split; [assumption|]. now rewrite (state_is_free_coords self o o'). }
  intros b Hb. destruct Htree as [[_ Ht]|[_ Ht]]; rewrite Ht in Hb; auto.
  apply elem_of_app in Hb as [Hb| ->%list_elem_of_singleton]; eauto.
Qed.

Lemma round_distinct_places self fuel dest gr tree st f st' :
  (forall a, a ∈ tree -> (a < length (heap st))%nat) ->
  distinct_places (heap st) tree -> (dest < length (heap st))%nat ->
  round_effect self fuel dest gr tree st f st' ->
  distinct_places (heap st') (tree_of f).
Proof.
  intros Hvalid Hdist Hdest Hround.
  destruct (round_objects _ _ _ _ _ _ _ _ Hround Hdest)
    as [[-> Hh]|(sn & near & s_new & H)]; [simpl; now rewrite Hh|].
  cbv zeta in H.
  destruct H as (_ & _ & _ & _ & _ & _ & Hat & Htree & Hobj).
  assert (Hold : forall i a oa', tree !! i = Some a ->
            heap st' !! a = Some oa' ->
            exists oa, heap st !! a = Some oa /\
                       x oa' = x oa /\ y oa' = y oa).
  { intros i a oa' Hi Ha'.
    destruct (lookup_lt_is_Some_2 (heap st) a) as [oa Hoa].
    { eapply Hvalid, list_elem_of_lookup_2, Hi. }
    destruct (Hobj a oa Hoa) as (o & Ho & Hx & Hy & _).
    exists oa. assert (o = oa') as <- by congruence. auto. }
  assert (Hpair : forall i j a b oa ob, tree !! i = Some a ->
            tree !! j = Some b -> heap st' !! a = Some oa ->
            heap st' !! b = Some ob -> State_eq oa ob = true -> i = j).
  { intros i j a b oa' ob' Hi Hj Ha' Hb' Heq.
    destruct (Hold i a oa' Hi Ha') as (oa & Hoa & Hxa & Hya).
    destruct (Hold j b ob' Hj Hb') as (ob & Hob & Hxb & Hyb).
    apply (Hdist i j a b oa ob); auto.
    now rewrite <- (State_eq_coords oa oa' ob ob'). }
  destruct Htree as [[_ ->]|[Hfresh ->]]; [exact Hpair|].
  assert (Hclash : forall i a oa', tree !! i = Some a ->
            heap st' !! a = Some oa' -> State_eq oa' s_new = true -> False).
  { intros i a oa' Hi Ha' Heq. apply Hfresh.
    destruct (Hold i a oa' Hi Ha') as (oa & Hoa & Hxa & Hya).
    exists a, oa. split; [eapply list_elem_of_lookup_2, Hi|].
    split; [now apply lookup_app_l_Some|].
    now rewrite <- (State_eq_coords oa oa' s_new s_new). }
  intros i j a b oa ob Hi Hj Ha Hb Heq.
  apply lookup_app_Some in Hi as [Hi|[Hli Hi]];
    apply lookup_app_Some in Hj as [Hj|[Hlj Hj]].
  - eapply Hpair; eauto.
  - apply list_lookup_singleton_Some in Hj as [Hj <-].
    exfalso. apply (Hclash i a oa Hi Ha). congruence.
  - apply list_lookup_singleton_Some in Hi as [Hi <-].
    exfalso. apply (Hclash j b ob Hj Hb).
    rewrite State_eq_sym. congruence.
  - apply list_lookup_singleton_Some in Hi as [Hi _].
    apply list_lookup_singleton_Some in Hj as [Hj _]. lia.
Qed.

Lemma round_links_consistent self fuel dest gr n0 tree st f st' :
  links_consistent n0 (heap st) -> (dest < n0 <= length (heap st))%nat ->
  round_effect self fuel dest gr tree st f st' ->
  links_consistent n0 (heap st').
Proof.
  intros Hlinks Hdest Hround.
  destruct (round_objects _ _ _ _ _ _ _ _ Hround ltac:(lia))
    as [[_ Hh]|(sn & near & s_new & H)]; [now rewrite Hh|].
  cbv zeta in H.
  destruct H as (_ & Hnear & Hpar & _ & _ & Hlen & Hat & _ & Hobj).
  assert (Hkids : forall p op c, heap st !! p = Some op -> c ∈ children op ->
            exists op', heap st' !! p = Some op' /\ c ∈ children op').
  { intros p op c Hp Hc.
    destruct (Hobj p op Hp) as (op' & Hp' & _ & _ & _ & Hch). exists op'.
    split; [assumption|]. rewrite Hch.
    destruct (decide (p = sn)); [apply elem_of_app|]; auto. }
  intros a Ha. rewrite Hlen in Ha.
  destruct (decide (a = length (heap st))) as [->|Hne].
  - destruct (Hobj sn near Hnear) as (near' & Hnear' & _ & _ & _ & Hch).
    exists s_new, sn, near'. repeat (split; [assumption|]).
    rewrite Hch. destruct (decide (sn = sn)); [|contradiction].
    apply elem_of_app. right. now apply list_elem_of_singleton.
  - destruct (Hlinks a ltac:(lia)) as (o & p & op & Ho & Hp & Hop & Hin).
    destruct (Hobj a o Ho) as (o' & Ho' & _ & _ & Hpar' & _).
    destruct (Hkids p op a Hop Hin) as (op' & Hop' & Hin').
    exists o', p, op'. split; [assumption|].
    split; [rewrite Hpar' by lia; assumption|auto].
Qed.

Section Invariants.

Variable np : NumpyMath.
Variable rnd : nat -> Z.
Variable order : SetOrder.
Variable self : RRTPlanner.

Lemma plan_loop_objects fuel dest r gr n0 start steps :
  forall tree st f st',
  plan_loop np rnd order self fuel dest r gr steps tree st = Ok (f, st') ->
  tree_inv n0 start (heap st) tree -> (dest < n0)%nat ->
  (all_free self (heap st) tree -> all_free self (heap st') (tree_of f)) /\
  (distinct_places (heap st) tree ->
   distinct_places (heap st') (tree_of f)) /\
  (links_consistent n0 (heap st) -> links_consistent n0 (heap st')) /\
  objects_grow dest st st' /\
  (forall b, (b < n0)%nat -> b <> start -> b <> dest ->
     heap st' !! b = heap st !! b).
Proof.
  induction steps as [|steps IH]; intros tree st f st' H Hinv Hdest;
    simpl in H.
  - apply M_ret_Ok in H as [-> ->].
    split; [auto|]. split; [auto|]. split; [auto|].
    split; [apply objects_grow_refl|auto].
  - apply M_bind_Ok in H as (f1 & st1 & H1 & H).
    apply plan_iteration_Ok in H1.
    pose proof (tree_inv_valid _ _ _ _ Hinv) as Hvalid.
    assert (Hn0 : (n0 <= length (heap st))%nat) by (destruct Hinv; lia).
    destruct (round_invariants _ _ _ _ _ _ _ _ _ _ Hinv Hdest H1)
      as (Hinv1 & _).
    assert (Hstep :
      (all_free self (heap st) tree ->
       all_free self (heap st1) (tree_of f1)) /\
      (distinct_places (heap st) tree ->
       distinct_places (heap st1) (tree_of f1)) /\
      (links_consistent n0 (heap st) -> links_consistent n0 (heap st1)) /\
      objects_grow dest st st1 /\
      (forall b, (b < n0)%nat -> b <> start -> b <> dest ->
         heap st1 !! b = heap st !! b)).
    { split; [intros; eapply round_all_free; eauto; lia|].
      split; [intros; eapply round_distinct_places; eauto; lia|].
      split; [intros; eapply round_links_consistent; eauto; lia|].
      split; [eapply round_objects_grow; eauto; lia|].
      eapply round_frame; eauto. }
    destruct f1 as [tree1|tree1 s_new path].
    + apply IH in H as (Hf & Hd & Hl & Hg & Hfr); [|assumption..].
      destruct Hstep as (Hf1 & Hd1 & Hl1 & Hg1 & Hfr1).
      split; [auto|]. split; [auto|]. split; [auto|].
      split; [eapply objects_grow_trans; eauto|].
      intros b Hb Hbs Hbd. rewrite Hfr, Hfr1; auto.
    + apply M_ret_Ok in H as [-> ->]. exact Hstep.
Qed.

End Invariants.

Lemma parent_chain_fun h a l :
  parent_chain h a l -> forall l', parent_chain h a l' -> l = l'.
Proof.
  induction 1 as [a o Ha Hp | a o p l Ha Hp _ IH]; intros l' H';
    inversion H' as [a' o' Ha' Hp' | a' o' p' l2 Ha' Hp' Hl2]; subst;
    try congruence.
  f_equal. apply IH. congruence.
Qed.

Lemma follow_parent_pointers_Ok_rev fuel a st r st' :
  _follow_parent_pointers fuel a st = Ok (r, st') ->
  exists l, parent_chain (heap st) a l /\ r = rev l ++ [a].
Proof.
  unfold _follow_parent_pointers. intros H.
  apply M_bind_Ok in H as (path & st1 & H1 & H).
  apply M_ret_Ok in H as [-> _].
  apply follow_loop_Ok_chain in H1 as (l & Hl & ->). eauto.
Qed.

(** The path a round hands to the variable [plan] when it breaks. *)
Lemma round_break_path self fuel dest gr n0 start tree st t s_new path st' :
  tree_inv n0 start (heap st) tree -> root_inv start (heap st) ->
  (dest < n0)%nat ->
  round_effect self fuel dest gr tree st (Break t s_new path) st' ->
  exists o_new s_nearest l,
    heap st' !! s_new = Some o_new /\ parent o_new = Some s_nearest /\
    tree_path (heap st') start s_nearest l /\
    (forall b, b ∈ l -> b ∈ t) /\
    path = rev l ++ [s_new; dest; dest].
Proof.
  intros Hinv Hroot Hdest Hround.
  assert (Hn0 : (n0 <= length (heap st))%nat) by (destruct Hinv; lia).
  destruct (round_invariants _ _ _ _ _ _ _ _ _ _ Hinv Hdest Hround)
    as (Hinv' & Hroot').
  specialize (Hroot' Hroot). simpl in Hinv'.
  destruct (round_goal_outcome _ _ _ _ _ _ _ _ Hround ltac:(lia))
    as (d0 & d' & _ & Hd' & _ & _ & Hpd' & _).
  destruct (round_objects _ _ _ _ _ _ _ _ Hround ltac:(lia))
    as [[Hc _]|(sn & near & o_new & H)]; [discriminate|].
  cbv zeta in H.
  destruct H as (Hsn & _ & Hpar & _ & _ & _ & Hat & Htree & _).
  destruct Hround as (_ & a & near0 & s0 & _ & _ & _ & _ & [[Hc _]|(_ & Hins)]);
    [discriminate|].
  simpl in Hins.
  destruct Hins as (_ & d & _ & [(dist & Hc & _)|(p' & dist & Hf & _ & Hfollow & _)]);
    [discriminate|].
  injection Hf as -> ->.
  assert (Hsnt : sn ∈ t).
  { simpl in Htree. destruct Htree as [[_ ->]|[_ ->]]; [assumption|].
    apply elem_of_app. auto. }
  destruct (tree_inv_rooted _ _ _ _ Hinv') as (_ & _ & Hpaths).
  destruct (Hpaths sn Hsnt) as (l & Hl & Hin).
  destruct (tree_path_parent_chain _ _ _ _ Hroot' Hl) as [Hchain _].
  exists o_new, sn, l. repeat (split; [assumption|]).
  apply follow_parent_pointers_Ok_rev in Hfollow as (L & HL & ->).
  rewrite (parent_chain_fun _ _ _ HL (dest :: length (heap st) :: l)).
  - simpl. now rewrite <- !app_assoc.
  - eapply chain_step; [exact Hd'|exact Hpd'|].
    eapply chain_step; eassumption.
Qed.

Section Further.

Variable np : NumpyMath.
Variable rnd : nat -> Z.
Variable order : SetOrder.
Variable self : RRTPlanner.

Lemma tree_inv_start (start : addr) (h : list State) :
  (start < length h)%nat -> tree_inv (length h) start h [start].
Proof.
  intros Hstart. split; [apply list_elem_of_singleton; reflexivity|].
  split; [lia|]. intros a ->%list_elem_of_singleton Hne. contradiction.
Qed.

Lemma plan_loop_break_path fuel dest r gr n0 start steps :
  forall tree st t s_new path st',
  plan_loop np rnd order self fuel dest r gr steps tree st
    = Ok (Break t s_new path, st') ->
  tree_inv n0 start (heap st) tree -> root_inv start (heap st) ->
  (dest < n0)%nat ->
  exists o_new s_nearest l,
    heap st' !! s_new = Some o_new /\ parent o_new = Some s_nearest /\
    tree_path (heap st') start s_nearest l /\
    (forall b, b ∈ l -> b ∈ t) /\
    path = rev l ++ [s_new; dest; dest].
Proof.
  induction steps as [|steps IH];
    intros tree st t s_new path st' H Hinv Hroot Hdest; simpl in H.
  - apply M_ret_Ok in H as [[=] _].
  - apply M_bind_Ok in H as (f1 & st1 & H1 & H).
    apply plan_iteration_Ok in H1.
    destruct (round_invariants _ _ _ _ _ _ _ _ _ _ Hinv Hdest H1)
      as (Hinv1 & Hroot1).
    destruct f1 as [tree1|tree1 s1 path1].
    + simpl in Hinv1. apply (IH tree1 st1); auto.
    + apply M_ret_Ok in H as [[= -> -> ->] ->].
      apply (round_break_path self fuel dest gr n0 start tree st); auto.
Qed.

(** X15: every round of the loop draws exactly two random numbers (its
    one call of [sample_state]) and attaches at most one node to the tree:
    a loop that runs out of rounds has drawn [2 * steps] numbers, a loop
    that broke has drawn [2 * k] for the number [k >= 1] of the round that
    broke it, and in both cases at most [k] nodes were attached. *)
Lemma plan_loop_rounds_draws fuel dest r gr steps : forall tree st f st',
  plan_loop np rnd order self fuel dest r gr steps tree st = Ok (f, st') ->
  exists k, (k <= steps)%nat /\
    draws st' = (draws st + 2 * k)%nat /\
    (length (heap st) <= length (heap st') <= length (heap st) + k)%nat /\
    match f with
    | Continue _ => k = steps
    | Break _ _ _ => (1 <= k)%nat
    end.
Proof.
  induction steps as [|steps IH]; intros tree st f st' H; simpl in H.
  - apply M_ret_Ok in H as [-> ->]. exists 0%nat. repeat split; lia.
  - apply M_bind_Ok in H as (f1 & st1 & H1 & H).
    apply plan_iteration_Ok in H1.
    pose proof (round_heap_length _ _ _ _ _ _ _ _ H1) as Hlen1.
    destruct H1 as (Hdraws & _).
    destruct f1 as [tree1|tree1 s_new path].
    + apply IH in H as (k & Hk & Hd & Hl & Hf). exists (S k).
      repeat split; try lia. destruct f; lia.
    + apply M_ret_Ok in H as [-> ->]. exists 1%nat. repeat split; lia.
Qed.

End Further.

Lemma plan_loop_rounds_draws_witness :
  exists k, (k <= 1)%nat /\
    draws after_one_round = (draws (two_objects 10 25) + 2 * k)%nat /\
    (length (heap (two_objects 10 25)) <= length (heap after_one_round)
       <= length (heap (two_objects 10 25)) + k)%nat /\
    (1 <= k)%nat.
Proof.
  apply (plan_loop_rounds_draws first_order_math ten_then_twenty
           insertion_order open_field 10 1%nat 30 8 1%nat [0%nat]
           (two_objects 10 25) (Break [0; 2]%nat 2%nat [0; 2; 1; 1]%nat)
           after_one_round).
  vm_compute. reflexivity.
Defined.

(** ** The nodes [plan] has in its set *)

(** X10: every member of the set of nodes is in free space, at every end
    of the loop: the start was asserted free, and a node enters only when
    the edge to it passed [path_is_obstacle_free]. *)
Theorem plan_nodes_in_free_space np rnd order self fuel start dest r gr
    steps st s f st' :
  heap st !! start = Some s -> state_is_free self s = true ->
  (dest < length (heap st))%nat ->
  plan_loop np rnd order self fuel dest r gr steps [start] st = Ok (f, st') ->
  forall a, a ∈ tree_of f ->
    exists o, heap st' !! a = Some o /\ state_is_free self o = true.
Proof.
  intros Hs Hfree Hdest Hloop.
  pose proof (lookup_lt_Some _ _ _ Hs) as Hstart.
  destruct (plan_loop_objects np rnd order self _ _ _ _ _ _ _ _ _ _ _ Hloop
              (tree_inv_start start (heap st) Hstart) Hdest)
    as (Hall & _).
  apply Hall. intros a ->%list_elem_of_singleton. eauto.
Qed.

Lemma plan_nodes_in_free_space_witness :
  exists o, heap after_one_round !! 2%nat = Some o /\
            state_is_free open_field o = true.
Proof.
  apply (plan_nodes_in_free_space first_order_math ten_then_twenty
           insertion_order open_field 10 0%nat 1%nat 30 8 1%nat
           (two_objects 10 25) (State_init 10 10 None)
           (Break [0; 2]%nat 2%nat [0; 2; 1; 1]%nat) after_one_round);
    [reflexivity|vm_compute; reflexivity|simpl; lia|vm_compute; reflexivity|].
  simpl. apply elem_of_cons. right. apply elem_of_cons. left. reflexivity.
Defined.

(** X11: no two members of the set of nodes are at the same coordinates,
    at every end of the loop. *)
Theorem plan_nodes_at_distinct_places np rnd order self fuel start dest r gr
    steps st f st' :
  (start < length (heap st))%nat -> (dest < length (heap st))%nat ->
  plan_loop np rnd order self fuel dest r gr steps [start] st = Ok (f, st') ->
  distinct_places (heap st') (tree_of f).
Proof.
  intros Hstart Hdest Hloop.
  destruct (plan_loop_objects np rnd order self _ _ _ _ _ _ _ _ _ _ _ Hloop
              (tree_inv_start start (heap st) Hstart) Hdest)
    as (_ & Hdist & _).
  apply Hdist. intros i j a b oa ob Hi Hj _ _ _.
  apply list_lookup_singleton_Some in Hi as [-> _].
  apply list_lookup_singleton_Some in Hj as [-> _]. reflexivity.
Qed.

Lemma plan_nodes_at_distinct_places_witness :
  distinct_places (heap after_one_round) [0; 2]%nat.
Proof.
  apply (plan_nodes_at_distinct_places first_order_math ten_then_twenty
           insertion_order open_field 10 0%nat 1%nat 30 8 1%nat
           (two_objects 10 25)
           (Break [0; 2]%nat 2%nat [0; 2; 1; 1]%nat) after_one_round);
    [simpl; lia|simpl; lia|vm_compute; reflexivity].
Defined.

(** X12: every node that the loop has attached to the tree (an [s_new]
    whose edge passed [path_is_obstacle_free]) has, at every end of the
    loop, a parent, and is among the children of that parent: the two
    links of an edge are set together and no later round undoes one of
    them. *)
Theorem plan_edges_linked_both_ways np rnd order self fuel start dest r gr
    steps st f st' :
  (start < length (heap st))%nat -> (dest < length (heap st))%nat ->
  plan_loop np rnd order self fuel dest r gr steps [start] st = Ok (f, st') ->
  links_consistent (length (heap st)) (heap st').
Proof.
  intros Hstart Hdest Hloop.
  destruct (plan_loop_objects np rnd order self _ _ _ _ _ _ _ _ _ _ _ Hloop
              (tree_inv_start start (heap st) Hstart) Hdest)
    as (_ & _ & Hlinks & _).
  apply Hlinks. intros a Ha. lia.
Qed.

Lemma plan_edges_linked_both_ways_witness :
  links_consistent 2 (heap after_one_round).
Proof.
  apply (plan_edges_linked_both_ways first_order_math ten_then_twenty
           insertion_order open_field 10 0%nat 1%nat 30 8 1%nat
           (two_objects 10 25)
           (Break [0; 2]%nat 2%nat [0; 2; 1; 1]%nat) after_one_round);
    [simpl; lia|simpl; lia|vm_compute; reflexivity].
Defined.

(** X13: the loop deletes no object and moves none; an object keeps the
    children it had, in their order, and its parent, the destination
    apart.  The objects that existed before the call, other than the start
    and the destination, are left exactly as they were. *)
Theorem plan_loop_frame np rnd order self fuel start dest r gr steps st f st' :
  (start < length (heap st))%nat -> (dest < length (heap st))%nat ->
  plan_loop np rnd order self fuel dest r gr steps [start] st = Ok (f, st') ->
  objects_grow dest st st' /\
  forall b, (b < length (heap st))%nat -> b <> start -> b <> dest ->
    heap st' !! b = heap st !! b.
Proof.
  intros Hstart Hdest Hloop.
  destruct (plan_loop_objects np rnd order self _ _ _ _ _ _ _ _ _ _ _ Hloop
              (tree_inv_start start (heap st) Hstart) Hdest)
    as (_ & _ & _ & Hgrow & Hframe).
  auto.
Qed.

Lemma plan_loop_frame_witness :
  objects_grow 1%nat (two_objects 10 25) after_one_round.
Proof.
  apply (plan_loop_frame first_order_math ten_then_twenty
           insertion_order open_field 10 0%nat 1%nat 30 8 1%nat
           (two_objects 10 25)
           (Break [0; 2]%nat 2%nat [0; 2; 1; 1]%nat) after_one_round);
    [simpl; lia|simpl; lia|vm_compute; reflexivity].
Defined.

(** X14: when the loop breaks, the path it hands to the variable [plan]
    leads from the start along edges of the tree to the parent of the new
    node, then to the new node, then to the destination, which comes
    twice; every node before the new one is a member of the set. *)
Theorem plan_loop_break_path_shape np rnd order self fuel start dest r gr
    steps st t s_new path st' :
  (start < length (heap st))%nat -> (dest < length (heap st))%nat ->
  root_inv start (heap st) ->
  plan_loop np rnd order self fuel dest r gr steps [start] st
    = Ok (Break t s_new path, st') ->
  exists o_new s_nearest l,
    heap st' !! s_new = Some o_new /\ parent o_new = Some s_nearest /\
    tree_path (heap st') start s_nearest l /\
    (forall b, b ∈ l -> b ∈ t) /\
    path = rev l ++ [s_new; dest; dest].
Proof.
  intros Hstart Hdest Hroot Hloop.
  apply (plan_loop_break_path np rnd order self fuel dest r gr
           (length (heap st)) start steps [start] st); auto.
  now apply tree_inv_start.
Qed.

Lemma plan_loop_break_path_shape_witness :
  exists o_new s_nearest l,
    heap after_one_round !! 2%nat = Some o_new /\
    parent o_new = Some s_nearest /\
    tree_path (heap after_one_round) 0%nat s_nearest l /\
    (forall b, b ∈ l -> b ∈ [0; 2]%nat) /\
    [0; 2; 1; 1]%nat = rev l ++ [2; 1; 1]%nat.
Proof.
  apply (plan_loop_break_path_shape first_order_math ten_then_twenty
           insertion_order open_field 10 0%nat 1%nat 30 8 1%nat
           (two_objects 10 25) [0; 2]%nat 2%nat [0; 2; 1; 1]%nat
           after_one_round);
    [simpl; lia|simpl; lia| |vm_compute; reflexivity].
  exists (State_init 10 10 None). split; reflexivity.
Defined.

(** ** [plan] as a whole *)



(** X17: whatever the loop did, a call of [plan] that returns returns the
    one-element list [[start_state]], and it returns only when the start
    and the destination are both in free space. *)
Theorem plan_returns_only_start np rnd order self fuel start dest max r gr
    st path st' :
  plan np rnd order self fuel start dest max r gr st = Ok (path, st') ->
  path = [start] /\
  exists s d,
    heap st !! start = Some s /\ state_is_free self s = true /\
    heap st !! dest = Some d /\ state_is_free self d = true.
Proof.
  intros H.
  apply plan_Ok in H as (-> & s & d & f & Hs & Hfs & Hd & Hfd & _).
  split; [reflexivity|]. exists s, d. auto.
Qed.

Lemma plan_returns_only_start_witness :
  [0%nat] = [0%nat] /\
  exists s d,
    heap (two_objects 10 25) !! 0%nat = Some s /\
    state_is_free open_field s = true /\
    heap (two_objects 10 25) !! 1%nat = Some d /\
    state_is_free open_field d = true.
Proof.
  apply (plan_returns_only_start first_order_math ten_then_twenty
           insertion_order open_field 10 0%nat 1%nat 1 30 8
           (two_objects 10 25) [0%nat] after_one_round).
  vm_compute. reflexivity.
Defined.

(** ** The nearest node: [find_closest_state] *)

Lemma SFltb_irrefl (a : spec_float) : SFltb a a = false.
Proof.
  unfold SFltb, SFcompare.
  destruct a as [s|s| |s m e]; try destruct s; try reflexivity;
    rewrite Z.compare_refl;
    change (Pos.compare_cont Eq m m) with (Pos.compare m m);
    now rewrite Pos.compare_refl.
Qed.

Lemma SFltb_trans (a b c : spec_float) :
  SFltb a b = true -> SFltb b c = true -> SFltb a c = true.
Proof.
  unfold SFltb, SFcompare.
  destruct a as [sa|sa| |sa ma ea], b as [sb|sb| |sb mb eb],
    c as [sc|sc| |sc mc ec];
    try destruct sa; try destruct sb; try destruct sc;
    try discriminate; try reflexivity;
    change (Pos.compare_cont Eq) with Pos.compare;
    destruct (Z.compare_spec ea eb), (Z.compare_spec eb ec),
      (Z.compare_spec ea ec);
    subst; try lia; try discriminate; try reflexivity;
    destruct (Pos.compare_spec ma mb), (Pos.compare_spec mb mc),
      (Pos.compare_spec ma mc);
    subst; simpl; try lia; try discriminate; try reflexivity.
Qed.

(** The comparison [<] of floats is a strict order. *)
Lemma float_ltb_irrefl (a : float) : (a <? a)%float = false.
Proof. rewrite ltb_spec. apply SFltb_irrefl. Qed.

Lemma float_ltb_trans (a b c : float) :
  (a <? b)%float = true -> (b <? c)%float = true -> (a <? c)%float = true.
Proof. rewrite !ltb_spec. apply SFltb_trans. Qed.

Lemma float_ltb_asym (a b : float) :
  (a <? b)%float = true -> (b <? a)%float = false.
Proof.
  intros Hab. destruct (b <? a)%float eqn:Hba; [|reflexivity].
  now rewrite <- (float_ltb_irrefl a), (float_ltb_trans a b a).
Qed.

Lemma float_ltb_below (a b c : float) :
  (a <? b)%float = false -> (c <? b)%float = true -> (a <? c)%float = false.
Proof.
  intros Hab Hcb. destruct (a <? c)%float eqn:Hac; [|reflexivity].
  now rewrite <- Hab, (float_ltb_trans a c b).
Qed.

(** The loop of [find_closest_state] ends on a bound [m'] that no node of
    the list is below; either it is the bound it started from, and the
    candidate is the one it started from, or it is the distance of the
    candidate, a node of the list, and lies below the starting bound. *)
Lemma closest_loop_min nodes state : forall closest m st r st',
  closest_loop nodes state closest m st = Ok (r, st') ->
  exists m',
    ((m' = m /\ r = closest) \/
     ((m' <? m)%float = true /\
      exists a o, r = Some a /\ a ∈ nodes /\ heap st !! a = Some o /\
                  euclidean_distance o state = Ok m')) /\
    forall n o dn, n ∈ nodes -> heap st !! n = Some o ->
      euclidean_distance o state = Ok dn -> (dn <? m')%float = false.
Proof.
  induction nodes as [|node rest IH]; intros closest m st r st' H;
    simpl in H.
  - apply M_ret_Ok in H as [-> ->]. exists m. split; [auto|].
    intros n o dn Hn%elem_of_nil. contradiction.
  - inv_bind H as o Ho. inv_bind H as dist Hdist.
    destruct (dist <? m)%float eqn:Hlt;
      apply IH in H as (m' & Hcase & Hmin); exists m'.
    + split.
      * right. destruct Hcase as [[-> ->]|(Hlt' & a & oa & -> & Ha & Hoa & Hda)].
        -- split; [assumption|]. exists node, o.
           repeat split; auto. apply elem_of_cons; auto.
        -- split; [eapply float_ltb_trans; eassumption|]. exists a, oa.
           repeat split; auto. apply elem_of_cons; auto.
      * intros n on dn [->|Hn]%elem_of_cons Hon Hdn; [|eauto].
        assert (on = o) as -> by congruence.
        assert (dn = dist) as -> by congruence.
        destruct Hcase as [[-> _]|(Hlt' & _)];
          [apply float_ltb_irrefl|now apply float_ltb_asym].
    + split.
      * destruct Hcase as [Hsame|(Hlt' & a & oa & -> & Ha & Hoa & Hda)];
          [auto|right].
        split; [assumption|]. exists a, oa.
        repeat split; auto. apply elem_of_cons; auto.
      * intros n on dn [->|Hn]%elem_of_cons Hon Hdn; [|eauto].
        assert (on = o) as -> by congruence.
        assert (dn = dist) as -> by congruence.
        destruct Hcase as [[-> _]|(Hlt' & _)];
          [assumption|eapply float_ltb_below; eassumption].
Qed.

(** X18: the node that [find_closest_state] returns is a node of the list
    and no node of the list is at a smaller distance of the given state;
    it returns [None] only when no node of the list is at a distance below
    infinity.  It changes nothing. *)
Theorem find_closest_state_minimal nodes state st r st' :
  find_closest_state nodes state st = Ok (r, st') ->
  st' = st /\
  match r with
  | Some a => closest_among (heap st) nodes state a
  | None =>
      forall n o dn, n ∈ nodes -> heap st !! n = Some o ->
        euclidean_distance o state = Ok dn -> (dn <? infinity)%float = false
  end.
Proof.
  intros H. pose proof (find_closest_state_Ok _ _ _ _ _ H) as [-> _].
  split; [reflexivity|].
  apply closest_loop_min in H as (m' & Hcase & Hmin).
  destruct Hcase as [[-> ->]|(_ & a & o & -> & Ha & Ho & Hd)];
    [exact Hmin|].
  split; [assumption|]. exists o, m'. auto.
Qed.

Lemma find_closest_state_minimal_witness :
  after_one_round = after_one_round /\
  closest_among (heap after_one_round) [0; 2]%nat (State_init 10 22 None)
    2%nat.
Proof.
  apply (find_closest_state_minimal [0; 2]%nat (State_init 10 22 None)
           after_one_round (Some 2%nat) after_one_round).
  vm_compute. reflexivity.
Defined.

(** ** The destination in the tree *)

Lemma round_break_links self fuel dest gr tree st t s_new path st' :
  (dest < length (heap st))%nat ->
  round_effect self fuel dest gr tree st (Break t s_new path) st' ->
  exists o d,
    heap st' !! s_new = Some o /\ children o = [] /\
    heap st' !! dest = Some d /\ parent d = Some s_new.
Proof.
  intros Hdest Hround.
  pose proof (round_heap_length _ _ _ _ _ _ _ _ Hround) as Hlen.
  destruct (round_goal_outcome _ _ _ _ _ _ _ _ Hround Hdest)
    as (d0 & d' & _ & Hd' & _ & _ & Hpd' & Hlow & Hlen' & _).
  destruct (round_objects _ _ _ _ _ _ _ _ Hround Hdest)
    as [[Hc _]|(sn & near & o_new & H)]; [discriminate|].
  cbv zeta in H. destruct H as (_ & _ & _ & Hch & _ & _ & Hat & _).
  assert (s_new = length (heap st)) as -> by lia.
  exists o_new, d'. auto.
Qed.

Section Destination.

Variable np : NumpyMath.
Variable rnd : nat -> Z.
Variable order : SetOrder.
Variable self : RRTPlanner.

(** X21: when the loop breaks, the destination points to the new node as
    its parent, but the new node does not list the destination among its
    children: its list of children is empty.  The edge to the destination
    is recorded on the destination only. *)
Theorem plan_destination_linked_one_way fuel dest r gr steps :
  forall tree st t s_new path st',
  (dest < length (heap st))%nat ->
  plan_loop np rnd order self fuel dest r gr steps tree st
    = Ok (Break t s_new path, st') ->
  exists o d,
    heap st' !! s_new = Some o /\ children o = [] /\
    heap st' !! dest = Some d /\ parent d = Some s_new.
Proof.
  induction steps as [|steps IH];
    intros tree st t s_new path st' Hdest H; simpl in H.
  - apply M_ret_Ok in H as [[=] _].
  - apply M_bind_Ok in H as (f1 & st1 & H1 & H).
    apply plan_iteration_Ok in H1.
    pose proof (round_heap_length _ _ _ _ _ _ _ _ H1) as Hlen.
    destruct f1 as [tree1|tree1 s1 path1].
    + apply (IH tree1 st1 t _ path); [lia|exact H].
    + apply M_ret_Ok in H as [[= -> -> ->] ->].
      eapply (round_break_links self fuel dest gr tree st);
        [exact Hdest|exact H1].
Qed.

End Destination.

Lemma plan_destination_linked_one_way_witness :
  exists o d,
    heap after_one_round !! 2%nat = Some o /\ children o = [] /\
    heap after_one_round !! 1%nat = Some d /\ parent d = Some 2%nat.
Proof.
  apply (plan_destination_linked_one_way first_order_math ten_then_twenty
           insertion_order open_field 10 1%nat 30 8 1%nat [0%nat]
           (two_objects 10 25) [0; 2]%nat 2%nat [0; 2; 1; 1]%nat
           after_one_round);
    [simpl; lia|vm_compute; reflexivity].
Defined.

(** ** More on the two tests of free space *)

(** X19: [path_is_obstacle_free] asserts that [s_from] is in free space
    before anything else: with [s_from] on an obstacle it raises
    [AssertionError], whatever [s_to] is. *)
Theorem path_is_obstacle_free_asserts_from np self s_from o_from s_to st :
  heap st !! s_from = Some o_from -> state_is_free self o_from = false ->
  path_is_obstacle_free np self s_from s_to st = Raise AssertionError.
Proof.
  intros Hfrom Hocc. unfold path_is_obstacle_free.
  rewrite (M_bind_eq _ _ _ _ _ (get_obj_eq _ _ _ Hfrom)), Hocc. reflexivity.
Qed.

Lemma path_is_obstacle_free_asserts_from_witness :
  path_is_obstacle_free first_order_math walled_field 0%nat
    (State_init 10 20 None) (two_objects 10 25) = Raise AssertionError.
Proof.
  apply (path_is_obstacle_free_asserts_from first_order_math walled_field
           0%nat (State_init 10 10 None) (State_init 10 20 None)
           (two_objects 10 25));
    [reflexivity|vm_compute; reflexivity].
Defined.

Lemma py_slice_subseteq {A} (n start stop : Z) (l : list A) :
  py_slice n start stop l ⊆ l.
Proof.
  unfold py_slice. cbv zeta. etrans; [apply subseteq_take|apply subseteq_drop].
Qed.

(** X20: on a map where channel 0 of no pixel is 0 every state is
    reported free, wherever it is, inside the map or out of it. *)
Theorem state_is_free_on_free_map (p : RRTPlanner) (s : State) :
  (forall row px, row ∈ world p -> px ∈ row -> channel0 px <> 0) ->
  state_is_free p s = true.
Proof.
  intros Hfree. unfold state_is_free, slice2d.
  apply forallb_forall. intros l Hl.
  apply in_map_iff in Hl as (orow & <- & Horow).
  apply forallb_forall. intros v Hv.
  apply list_elem_of_In, py_slice_subseteq, list_elem_of_In in Hv.
  apply list_elem_of_In, py_slice_subseteq, list_elem_of_In in Horow.
  unfold occ_grid in Horow. apply in_map_iff in Horow as (row & <- & Hrow).
  apply in_map_iff in Hv as (px & <- & Hpx).
  apply list_elem_of_In in Hrow, Hpx.
  destruct (Z.eqb_spec (channel0 px) 0) as [Hz|_]; [|reflexivity].
  exfalso. exact (Hfree row px Hrow Hpx Hz).
Qed.

Lemma state_is_free_on_free_map_witness :
  state_is_free open_field (State_init (-100) 500 None) = true.
Proof.
  apply (state_is_free_on_free_map open_field (State_init (-100) 500 None)).
  intros row px Hrow Hpx.
  apply list_elem_of_In, repeat_spec in Hrow. subst row.
  apply list_elem_of_In, repeat_spec in Hpx. subst px.
  discriminate.
Defined.

(** ** Where a round attaches its node *)



